(** * generate_docs.py: CSV rows + HTML template -> one document per row

    A shallow embedding of the rendering core of [generate_docs.py]:
    the placeholder resolver ([render_template]), the style composer
    ([_inject_css_into_html]), the output namer ([_sanitize_filename],
    [_choose_output_filename]) and the batch loop of [main].

    Python [str] values are sequences of Unicode code points; they are
    modelled as lists of code points.  The three library facilities the
    program relies on ([re] with the four patterns of the source,
    [str.strip]/[str.rstrip], [str.replace]) are modelled below by small
    executable definitions that follow the documented behaviour of the
    library: [re] as a greedy backtracking matcher over the fragment of
    regular expressions the source uses. *)

From Stdlib Require Import ZArith NArith List Ascii String Lia Sorting.Sorted.
From Stdlib Require DecimalN.
From stdpp Require Import base option list gmap sorting.

Local Open Scope N_scope.

(** ** Strings *)

(** A character is a code point, a string a list of them. *)
Abbreviation char := N (only parsing).
Abbreviation str := (list N) (only parsing).

(** Reading of an ASCII literal as a [str]. *)
Fixpoint lit (s : string) : str :=
  match s with
  | EmptyString => []
  | String a s' => N_of_ascii a :: lit s'
  end.

Definition between (lo hi c : char) : bool := (lo <=? c) && (c <=? hi).

Definition eqc (x : char) (c : char) : bool := c =? x.

(** [Py_UNICODE_ISSPACE]: the characters [str.strip()] removes and [\s]
    matches in a [str] pattern. *)
Definition isspace (c : char) : bool :=
  between 9 13 c || between 28 32 c || eqc 133 c || eqc 160 c || eqc 5760 c
  || between 8192 8202 c || eqc 8232 c || eqc 8233 c || eqc 8239 c
  || eqc 8287 c || eqc 12288 c.

(** The class [[a-zA-Z0-9_]]. *)
Definition is_word (c : char) : bool :=
  between 97 122 c || between 65 90 c || between 48 57 c || eqc 95 c.

(** A letter of the pattern under [re.IGNORECASE]: for the ASCII letters
    the source uses (h, e, a, d, t, m, l) only the two ASCII cases have
    that lower-case form. [lower] is the code point of the small letter. *)
Definition is_ci (lower : char) (c : char) : bool :=
  (c =? lower) || (c =? lower - 32).

(** The class of [_sanitize_filename]: the nine characters
    less-than, greater-than, colon, double quote, slash, backslash, bar,
    question mark, star. *)
Definition reserved_chars : str := lit "<>:" ++ [34] ++ lit "/\|?*".

Definition is_reserved (c : char) : bool := bool_decide (c ∈ reserved_chars).

(** The class [[^>]]. *)
Definition not_gt (c : char) : bool := negb (eqc 62 c).

(** ** The fragment of [re] used by the source *)

Module Re.

(** An atom consumes one character of a class, or a greedy run of them:
    [c], [c*], [c+]. A pattern is a sequence of atoms. *)
Inductive atom : Type :=
  | One (p : char → bool)
  | Star (p : char → bool)
  | Plus (p : char → bool).

Definition regex := list atom.

(** A successful match: the text consumed by each atom, in order, and the
    unconsumed remainder of the subject. *)
Definition result : Type := list str * str.

Definition consume (g : str) (r : result) : result := (g :: r.1, r.2).

(** Greedy repetition with backtracking: take one more character of the
    class whenever the rest of the pattern [k] still matches afterwards,
    otherwise stop here. Returns the run and the result of [k]. *)
Fixpoint greedy (p : char → bool) (k : str → option result) (s : str)
  : option (str * result) :=
  let stop := pair [] <$> k s in
  match s with
  | c :: s' =>
      if p c then
        match greedy p k s' with
        | Some (g, r) => Some (c :: g, r)
        | None => stop
        end
      else stop
  | [] => stop
  end.

(** [pattern.match]: the pattern anchored at the start of [s]. *)
Fixpoint match_at (r : regex) (s : str) : option result :=
  match r with
  | [] => Some ([], s)
  | One p :: r' =>
      match s with
      | c :: s' => if p c then consume [c] <$> match_at r' s' else None
      | [] => None
      end
  | Star p :: r' =>
      (λ gr : str * result, consume gr.1 gr.2) <$> greedy p (match_at r') s
  | Plus p :: r' =>
      match s with
      | c :: s' =>
          if p c then
            (λ gr : str * result, consume (c :: gr.1) gr.2)
              <$> greedy p (match_at r') s'
          else None
      | [] => None
      end
  end.

(** [re.search]: the leftmost position where the pattern matches, as
    (text before the match, per-atom texts, text after the match). *)
Fixpoint search (r : regex) (s : str) : option (str * list str * str) :=
  match match_at r s with
  | Some (gs, rest) => Some ([], gs, rest)
  | None =>
      match s with
      | [] => None
      | c :: s' =>
          (λ m : str * list str * str, (c :: m.1.1, m.1.2, m.2)) <$> search r s'
      end
  end.

End Re.

(** ** Scanning for non-overlapping matches *)

(** What a left-to-right scan of a subject yields: the characters outside
    any match, and the matches. [re.sub] and [str.replace] both proceed
    this way: try at the current position, on a match continue right
    after it, otherwise keep the character and move one position on. *)
Inductive piece (A : Type) : Type :=
  | Text (c : char)
  | Hit (a : A).
Arguments Text {A} c.
Arguments Hit {A} a.

(** [m s] tells whether a match starts at the head of [s], with what
    payload, and what remains after it. [skip] counts the characters of
    the last match still to be passed over. *)
Fixpoint scan {A} (m : str → option (A * str)) (skip : nat) (s : str)
  : list (piece A) :=
  match skip, s with
  | S k, _ :: s' => scan m k s'
  | S _, [] => []
  | O, [] => match m [] with Some (a, _) => [Hit a] | None => [] end
  | O, c :: s' =>
      match m s with
      | Some (a, rest) =>
          Hit a :: match (length s - length rest)%nat with
                   | O => Text c :: scan m 0 s'
                   | S n => scan m n s'
                   end
      | None => Text c :: scan m 0 s'
      end
  end.

(** Rebuilding the subject with every match replaced. The replacement
    function is called once per match, left to right, and may update a
    state of its own (the closure variables of a Python callback). *)
Fixpoint substitute {A St} (repl : St → A → str * St) (st : St)
  (ps : list (piece A)) : str * St :=
  match ps with
  | [] => ([], st)
  | Text c :: ps' =>
      let '(out, st') := substitute repl st ps' in (c :: out, st')
  | Hit a :: ps' =>
      let '(v, st1) := repl st a in
      let '(out, st2) := substitute repl st1 ps' in (v ++ out, st2)
  end.

(** [pattern.sub(repl, s)] with a callable [repl]. *)
Definition re_sub {St} (r : Re.regex) (repl : St → list str → str * St)
  (st : St) (s : str) : str * St :=
  substitute repl st (scan (Re.match_at r) 0 s).

(** ** String methods *)

Fixpoint startswith (old s : str) : bool :=
  match old, s with
  | [], _ => true
  | x :: old', c :: s' => (c =? x) && startswith old' s'
  | _ :: _, [] => false
  end.

(** [s.replace(old, new)] for a non-empty [old]. *)
Definition str_replace (old new s : str) : str :=
  (substitute (λ (_ : unit) (_ : unit), (new, tt)) tt
     (scan (λ t, if startswith old t then Some (tt, drop (length old) t) else None)
        0 s)).1.

Fixpoint lstrip_chars (p : char → bool) (s : str) : str :=
  match s with
  | c :: s' => if p c then lstrip_chars p s' else s
  | [] => []
  end.

Definition rstrip_chars (p : char → bool) (s : str) : str :=
  rev (lstrip_chars p (rev s)).

(** [s.strip()] *)
Definition strip (s : str) : str := rstrip_chars isspace (lstrip_chars isspace s).

(** [l.remove(x)] for an [x] that occurs in [l]: drops its first occurrence. *)
Fixpoint list_remove_first (x : str) (l : list str) : list str :=
  match l with
  | [] => []
  | y :: l' => if decide (y = x) then l' else y :: list_remove_first x l'
  end.

(** Order of [str] values: lexicographic by code point. *)
Fixpoint str_leb (a b : str) : bool :=
  match a, b with
  | [], _ => true
  | _ :: _, [] => false
  | x :: a', y :: b' => (x <? y) || ((x =? y) && str_leb a' b')
  end.

Definition str_le (a b : str) : Prop := str_leb a b = true.

Global Instance str_le_dec : RelDecision str_le :=
  λ a b, decide (str_leb a b = true).

(** [sorted(set(l))] *)
Definition sorted_set (l : list str) : list str :=
  merge_sort str_le (remove_dups l).

(** ** Placeholder resolver *)

Definition chr (a : ascii) : char → bool := eqc (N_of_ascii a).

(** [PLACEHOLDER_RE = re.compile(r"\{\{\s*([a-zA-Z0-9_]+)\s*\}\}")] *)
Definition PLACEHOLDER_RE : Re.regex :=
  [Re.One (chr "{"); Re.One (chr "{"); Re.Star isspace; Re.Plus is_word;
   Re.Star isspace; Re.One (chr "}"); Re.One (chr "}")].

(** [match.group(1)] for [PLACEHOLDER_RE]: the text of its fourth atom. *)
Definition group1 (gs : list str) : str := default [] (gs !! 3%nat).

Record RenderResult : Type := {
  html : str;
  missing_placeholders : list str
}.

(** The callback [repl] of [render_template]; [missing] is the list it
    appends to. *)
Definition repl (row : gmap (list N) (list N)) (missing : list str)
  (gs : list str) : str * list str :=
  let key := group1 gs in
  match row !! key with
  | None => ([], missing ++ [key])
  | Some v => (v, missing)
  end.

Definition generated_at : str := lit "generated_at".
Definition generated_at_token : str := lit "{{generated_at}}".

(** [render_template]. The clock is read once, in the second pass:
    [now] stands for [datetime.now().strftime("%Y-%m-%d %H:%M:%S")]. *)
Definition render_template (now : str) (template_text : str)
  (row : gmap (list N) (list N)) : RenderResult :=
  let '(rendered, missing) := re_sub PLACEHOLDER_RE (repl row) [] template_text in
  let missing :=
    if bool_decide (generated_at ∈ missing)
    then list_remove_first generated_at missing
    else missing in
  let rendered := str_replace generated_at_token now rendered in
  {| html := rendered; missing_placeholders := sorted_set missing |}.


(** ** Style composer *)

Definition nl : str := [10].
Definition dq : str := [34].

(** [DEFAULT_CSS], line by line; [nl] is the line feed and [dq] the
    double quote. *)
Definition DEFAULT_CSS : str :=
  nl ++
  lit "/* ---- Fonts (Cyrillic-friendly if installed) ---- */" ++ nl ++
  lit "@font-face {" ++ nl ++
  lit "  font-family: " ++ dq ++ lit "DocFont" ++ dq ++ lit ";" ++ nl ++
  lit "  src: local(" ++ dq ++ lit "Roboto" ++ dq ++ lit "), local(" ++ dq ++ lit "Roboto Regular" ++ dq ++ lit "), local(" ++ dq ++ lit "Liberation Sans" ++ dq ++ lit "), local(" ++ dq ++ lit "Arial" ++ dq ++ lit ");" ++ nl ++
  lit "  font-weight: normal;" ++ nl ++
  lit "  font-style: normal;" ++ nl ++
  lit "}" ++ nl ++
  lit "@font-face {" ++ nl ++
  lit "  font-family: " ++ dq ++ lit "DocFont" ++ dq ++ lit ";" ++ nl ++
  lit "  src: local(" ++ dq ++ lit "Roboto Bold" ++ dq ++ lit "), local(" ++ dq ++ lit "Roboto-Bold" ++ dq ++ lit "), local(" ++ dq ++ lit "Liberation Sans Bold" ++ dq ++ lit "), local(" ++ dq ++ lit "Arial Bold" ++ dq ++ lit ");" ++ nl ++
  lit "  font-weight: bold;" ++ nl ++
  lit "  font-style: normal;" ++ nl ++
  lit "}" ++ nl ++
  nl ++
  lit "/* ---- Page / print settings ---- */" ++ nl ++
  lit "@page {" ++ nl ++
  lit "  size: A4;" ++ nl ++
  lit "  margin: 14mm 12mm 16mm 12mm;" ++ nl ++
  lit "}" ++ nl ++
  nl ++
  lit "html, body {" ++ nl ++
  lit "  font-family: " ++ dq ++ lit "DocFont" ++ dq ++ lit ", " ++ dq ++ lit "Roboto" ++ dq ++ lit ", " ++ dq ++ lit "Liberation Sans" ++ dq ++ lit ", Arial, sans-serif;" ++ nl ++
  lit "  font-size: 12pt;" ++ nl ++
  lit "  line-height: 1.35;" ++ nl ++
  lit "  color: #111;" ++ nl ++
  lit "}" ++ nl ++
  nl ++
  lit "/* Long strings (emails, ids, urls, etc.) */" ++ nl ++
  lit "* {" ++ nl ++
  lit "  overflow-wrap: anywhere;" ++ nl ++
  lit "  word-break: break-word;" ++ nl ++
  lit "}" ++ nl ++
  nl ++
  lit "h1, h2, h3 {" ++ nl ++
  lit "  margin: 0 0 10px 0;" ++ nl ++
  lit "}" ++ nl ++
  nl ++
  lit ".meta {" ++ nl ++
  lit "  color: #555;" ++ nl ++
  lit "  font-size: 10pt;" ++ nl ++
  lit "  margin-bottom: 10px;" ++ nl ++
  lit "}" ++ nl ++
  nl ++
  lit "/* ---- Table styling ---- */" ++ nl ++
  lit "table {" ++ nl ++
  lit "  width: 100%;" ++ nl ++
  lit "  border-collapse: collapse;" ++ nl ++
  lit "  margin: 10px 0;" ++ nl ++
  lit "}" ++ nl ++
  lit "th, td {" ++ nl ++
  lit "  border: 1px solid #222;" ++ nl ++
  lit "  padding: 8px 10px;" ++ nl ++
  lit "  vertical-align: top;" ++ nl ++
  lit "}" ++ nl ++
  lit "th {" ++ nl ++
  lit "  text-align: center;" ++ nl ++
  lit "  background: #f3f3f3;" ++ nl ++
  lit "}" ++ nl ++
  lit "td {" ++ nl ++
  lit "  text-align: center;" ++ nl ++
  lit "}" ++ nl ++
  nl ++
  lit "/* Utility */" ++ nl ++
  lit ".left { text-align: left; }" ++ nl ++
  lit ".right { text-align: right; }" ++ nl ++
  lit ".center { text-align: center; }" ++ nl.

Definition ci (a : ascii) : char → bool := is_ci (N_of_ascii a).

(** [r"</head\s*>"] under [re.IGNORECASE] *)
Definition CLOSE_HEAD_RE : Re.regex :=
  [Re.One (chr "<"); Re.One (chr "/"); Re.One (ci "h"); Re.One (ci "e");
   Re.One (ci "a"); Re.One (ci "d"); Re.Star isspace; Re.One (chr ">")].

(** [r"<html[^>]*>"] under [re.IGNORECASE] *)
Definition OPEN_HTML_RE : Re.regex :=
  [Re.One (chr "<"); Re.One (ci "h"); Re.One (ci "t"); Re.One (ci "m");
   Re.One (ci "l"); Re.Star not_gt; Re.One (chr ">")].

(** [m.start()] and [m.end()] of a search result. *)
Definition m_start (m : str * list str * str) : nat := length m.1.1.
Definition m_end (m : str * list str * str) : nat :=
  (length m.1.1 + length (concat m.1.2))%nat.

(** The f-string of [_inject_css_into_html]. *)
Definition style_block (css : str) : str :=
  lit "<style>" ++ nl ++ css ++ nl ++ lit "</style>" ++ nl.

Definition _inject_css_into_html (html css : str) : str :=
  match Re.search CLOSE_HEAD_RE html with
  | Some m =>
      let idx := m_start m in
      take idx html ++ style_block css ++ drop idx html
  | None =>
      match Re.search OPEN_HTML_RE html with
      | Some m =>
          let idx := m_end m in
          take idx html ++ (nl ++ lit "<head>" ++ nl) ++ style_block css
            ++ (lit "</head>" ++ nl) ++ drop idx html
      | None => style_block css ++ html
      end
  end.

(** ** Output namer *)

(** The pattern of [_sanitize_filename]: one or more reserved characters. *)
Definition RESERVED_RE : Re.regex := [Re.Plus is_reserved].

Definition dot_or_space (c : char) : bool := bool_decide (c ∈ lit ". ").

Definition _sanitize_filename (name : str) : str :=
  let name := strip name in
  if bool_decide (name = []) then lit "document" else
  let name := (re_sub RESERVED_RE (λ (_ : unit) _, (lit "_", tt)) tt name).1 in
  let name := strip (rstrip_chars dot_or_space name) in
  if bool_decide (name = []) then lit "document" else name.

(** Decimal digits of a number, most significant first. *)
Fixpoint uint_digits (d : Decimal.uint) : str :=
  match d with
  | Decimal.Nil => []
  | Decimal.D0 d' => 48 :: uint_digits d'
  | Decimal.D1 d' => 49 :: uint_digits d'
  | Decimal.D2 d' => 50 :: uint_digits d'
  | Decimal.D3 d' => 51 :: uint_digits d'
  | Decimal.D4 d' => 52 :: uint_digits d'
  | Decimal.D5 d' => 53 :: uint_digits d'
  | Decimal.D6 d' => 54 :: uint_digits d'
  | Decimal.D7 d' => 55 :: uint_digits d'
  | Decimal.D8 d' => 56 :: uint_digits d'
  | Decimal.D9 d' => 57 :: uint_digits d'
  end.

Definition zfill (width : nat) (s : str) : str :=
  replicate (width - length s) 48 ++ s.

(** The format specification [04d]: sign first, then zeros up to a total
    width of four. *)
Definition format_04d (z : Z) : str :=
  if (z <? 0)%Z
  then lit "-" ++ zfill 3 (uint_digits (N.to_uint (Z.abs_N z)))
  else zfill 4 (uint_digits (N.to_uint (Z.to_N z))).

(** The tuple the loop of [_choose_output_filename] runs over. *)
Definition name_keys : list str :=
  [lit "filename"; lit "file_name"; lit "doc_name"; lit "document_name";
   lit "id"; lit "name"].

(** The loop of [_choose_output_filename] over the remaining [keys],
    with the fallback after the last one. *)
Fixpoint choose_from (row : gmap (list N) (list N)) (index : Z)
  (keys : list str) : str :=
  match keys with
  | [] => lit "document_" ++ format_04d index
  | key :: keys' =>
      let val := strip (default [] (row !! key)) in
      if bool_decide (val = []) then choose_from row index keys'
      else _sanitize_filename val
  end.

Definition _choose_output_filename (row : gmap (list N) (list N)) (index : Z)
  : str :=
  choose_from row index name_keys.


(** ** Batch orchestrator *)

(** An output path [out_dir / filename]: the file names built by the
    program contain no separator, so the path is the pair. *)
Record Path : Type := { parent : str; name : str }.

Definition path_join (out_dir filename : str) : Path :=
  {| parent := out_dir; name := filename |}.

(** Exceptions, as far as [main] tells them apart. Only subclasses of
    [Exception] are modelled: an interrupt or an exit request is not an
    error of the run and is caught nowhere in the program. *)
Inductive exn_class : Type :=
  | FileNotFoundError
  | UnicodeDecodeError
  | RuntimeError
  | OtherException.

(** The text of an exception, as [str(e)] gives it: the formatted
    strings of the program put text and paths together, and how a path
    is written out depends on the platform, so a path stays a path. *)
Inductive msg_part : Type :=
  | Words (s : str)
  | PathName (p : Path).

Record exn : Type := Exn { exn_cls : exn_class; exn_msg : list msg_part }.

(** Result of a call that may raise. *)
Inductive raises (A : Type) : Type :=
  | Raise (e : exn)
  | Return (a : A).
Arguments Raise {A} e.
Arguments Return {A} a.

(** What the steps of [main] before the loop observe in this run, in
    the order of the source. Each step can raise; a step is looked at
    only when the steps before it went through. *)
Record Inputs : Type := {
  (** the two [_resolve_or_select_file] calls *)
  files_resolved : raises unit;
  (** [Path(args.out).expanduser().resolve()] *)
  out_dir : raises str;
  (** [csv_path.exists()] *)
  csv_exists : raises bool;
  (** [template_path.exists()] *)
  template_exists : raises bool;
  (** [template_path.is_file()] *)
  template_is_file : raises bool;
  (** [template_path.read_text(encoding="utf-8")] *)
  template_read : raises str;
  (** [load_csv(csv_path)] *)
  csv_loaded : raises (list (gmap (list N) (list N)));
  (** [out_dir.mkdir(parents=True, exist_ok=True)] *)
  out_dir_made : raises unit
}.

(** What the body of [html_to_pdf] can do: fail to import the backend,
    raise while creating directories, opening the file or converting, or
    return the error count of [pisa.CreatePDF]. *)
Inductive backend_outcome : Type :=
  | ImportFailed
  | BackendRaised (e : exn)
  | Created (err : N).

(** How a run of [main] ends. *)
Inductive outcome : Type :=
  | Exit (code : Z)
  | Uncaught (e : exn).

Section Orchestrator.
(** The external collaborators act on a world (file system, clock,
    viewer) that the program does not see into. *)
Context {World : Type}.
Variable backend : World → str → Path → World * backend_outcome.
Variable clock : World → str.
Variable open_file : World → Path → World.

(** The text of an integer, as a formatted string writes it. *)
Definition str_of_N (n : N) : str := uint_digits (N.to_uint n).

(** The [RuntimeError] of the outer handler of [html_to_pdf]. *)
Definition generation_failed (out_pdf_path : Path) (reason : list msg_part) : exn :=
  Exn RuntimeError
    ([Words (lit "xhtml2pdf failed to generate PDF: "); PathName out_pdf_path;
      Words (nl ++ lit "Reason: ")] ++ reason).

Definition html_to_pdf (w : World) (html : str) (out_pdf_path : Path)
  : World * raises unit :=
  let '(w', r) := backend w html out_pdf_path in
  match r with
  | ImportFailed =>
      (w', Raise (Exn RuntimeError
                    [Words (lit "xhtml2pdf is not installed or failed to import. Install with:"
                           ++ nl ++ lit "  pip install xhtml2pdf" ++ nl)]))
  | BackendRaised e => (w', Raise (generation_failed out_pdf_path (exn_msg e)))
  | Created err =>
      if err =? 0 then (w', Return tt)
      else
        (* the error raised inside the try is caught by its own handler *)
        (w', Raise (generation_failed out_pdf_path
                      [Words (lit "xhtml2pdf reported " ++ str_of_N err
                             ++ lit " error(s) while creating PDF.")]))
  end.

(** The loop [for idx, row in enumerate(rows, start=1)] of [main], from
    row number [idx] on, with the two accumulators of the source. *)
Fixpoint render_rows (template_with_css out : str) (w : World) (idx : Z)
  (rows : list (gmap (list N) (list N))) (failures : Z)
  (generated_paths : list Path) : World * Z * list Path :=
  match rows with
  | [] => (w, failures, generated_paths)
  | row :: rows' =>
      let render := render_template (clock w) template_with_css row in
      let filename := _choose_output_filename row idx ++ lit ".pdf" in
      let out_pdf := path_join out filename in
      match html_to_pdf w (html render) out_pdf with
      | (w', Return _) =>
          render_rows template_with_css out w' (idx + 1) rows' failures
            (generated_paths ++ [out_pdf])
      | (w', Raise _) =>
          render_rows template_with_css out w' (idx + 1) rows' (failures + 1)
            generated_paths
      end
  end.

Definition is_FileNotFoundError (e : exn) : bool :=
  match exn_cls e with FileNotFoundError => true | _ => false end.

(** [main], from the resolution of the two input files on. The first
    handler catches [FileNotFoundError] only; the resolution of the
    output directory and the three checks of the input paths stand
    outside every handler, so what they raise leaves [main]. *)
Definition main (inp : Inputs) (w : World) : World * outcome :=
  match files_resolved inp with
  | Raise e => if is_FileNotFoundError e then (w, Exit 2) else (w, Uncaught e)
  | Return _ =>
  match out_dir inp with
  | Raise e => (w, Uncaught e)
  | Return out_dir =>
  match csv_exists inp with
  | Raise e => (w, Uncaught e)
  | Return false => (w, Exit 2)
  | Return true =>
  match template_exists inp with
  | Raise e => (w, Uncaught e)
  | Return false => (w, Exit 2)
  | Return true =>
  match template_is_file inp with
  | Raise e => (w, Uncaught e)
  | Return false => (w, Exit 2)
  | Return true =>
  match template_read inp with
  | Raise _ => (w, Exit 2)
  | Return template_text =>
  match csv_loaded inp with
  | Raise _ => (w, Exit 2)
  | Return rows =>
  match out_dir_made inp with
  | Raise _ => (w, Exit 2)
  | Return _ =>
      let template_with_css := _inject_css_into_html template_text DEFAULT_CSS in
      let '(w1, failures, generated_paths) :=
        render_rows template_with_css out_dir w 1 rows 0 [] in
      let w2 := foldl open_file w1 generated_paths in
      (w2, Exit (if (failures =? 0)%Z then 0 else 1))
  end end end end end end end
  end.

(** *** Specification side: the attempts of a run *)

(** One entry per record, in input order: the path its document is
    written to and whether the render call succeeded. Every record is
    attempted in the world its predecessor left, whatever the outcome
    of the predecessor was. *)
Fixpoint attempts (template_with_css out : str) (w : World) (idx : Z)
  (rows : list (gmap (list N) (list N))) : list (Path * bool) :=
  match rows with
  | [] => []
  | row :: rows' =>
      let render := render_template (clock w) template_with_css row in
      let out_pdf := path_join out (_choose_output_filename row idx ++ lit ".pdf") in
      let wr := html_to_pdf w (html render) out_pdf in
      (out_pdf, match wr.2 with Return _ => true | Raise _ => false end)
        :: attempts template_with_css out wr.1 (idx + 1) rows'
  end.

End Orchestrator.

(** The last two lines of the program, [raise SystemExit(main())]: the
    value [main] returns is the exit status of the process, and an
    exception that leaves [main] ends the process with a traceback and
    the status 1 of the interpreter. *)
Definition exit_status (o : outcome) : Z :=
  match o with
  | Exit code => code
  | Uncaught _ => 1
  end.

(** ** Vocabulary of the specification *)

(** [old] occurs in [s] as a contiguous piece. *)
Fixpoint contains (old s : str) : bool :=
  startswith old s
  || match s with [] => false | _ :: s' => contains old s' end.

Definition all_of (p : char → bool) (s : str) : Prop :=
  Forall (λ c, p c = true) s.

(** A placeholder token and its name: two opening braces, optional
    whitespace, a name of one or more characters of [[A-Za-z0-9_]],
    optional whitespace, two closing braces. *)
Definition is_placeholder (tok name : str) : Prop :=
  ∃ ws1 ws2,
    tok = lit "{{" ++ ws1 ++ name ++ ws2 ++ lit "}}"
    ∧ all_of isspace ws1 ∧ name ≠ [] ∧ all_of is_word name ∧ all_of isspace ws2.

Definition placeholder_at (s : str) : Prop :=
  ∃ tok name rest, s = tok ++ rest ∧ is_placeholder tok name.

(** [Substituted row t out names]: reading the template [t] from left to
    right, a character at which no placeholder starts is copied; a
    placeholder whose name is a key of [row] is replaced by the value,
    which is not looked at again; a placeholder whose name is not a key
    is dropped and its name recorded. [names] are the recorded names in
    order of occurrence. *)
Inductive Substituted (row : gmap (list N) (list N))
  : str → str → list str → Prop :=
  | Sub_end : Substituted row [] [] []
  | Sub_char c t out names :
      ¬ placeholder_at (c :: t) →
      Substituted row t out names →
      Substituted row (c :: t) (c :: out) names
  | Sub_value tok key v t out names :
      is_placeholder tok key →
      row !! key = Some v →
      Substituted row t out names →
      Substituted row (tok ++ t) (v ++ out) names
  | Sub_missing tok key t out names :
      is_placeholder tok key →
      row !! key = None →
      Substituted row t out names →
      Substituted row (tok ++ t) out (key :: names).

(** The same letters up to ASCII case, [tag] against a lower-case word. *)
Definition same_letters (tag word : str) : Prop :=
  Forall2 (λ c l, is_ci l c = true) tag word.

(** A closing head marker: [</head], optional whitespace, [>]. *)
Definition is_close_head (m : str) : Prop :=
  ∃ tag ws,
    m = lit "</" ++ tag ++ ws ++ lit ">"
    ∧ same_letters tag (lit "head") ∧ all_of isspace ws.

(** An opening root marker: [<html], anything but [>], then [>]. *)
Definition is_open_html (m : str) : Prop :=
  ∃ tag attrs,
    m = lit "<" ++ tag ++ attrs ++ lit ">"
    ∧ same_letters tag (lit "html") ∧ all_of not_gt attrs.

(** [s = pre ++ m ++ post] with [m] in the language [L] and no word of
    [L] starting further left in [s]. *)
Definition first_occurrence (L : str → Prop) (s pre m post : str) : Prop :=
  s = pre ++ m ++ post ∧ L m
  ∧ ∀ pre' m' post', s = pre' ++ m' ++ post' → L m' → (length pre ≤ length pre')%nat.

Definition occurs (L : str → Prop) (s : str) : Prop :=
  ∃ pre m post, s = pre ++ m ++ post ∧ L m.

(** Every maximal run of reserved characters becomes one underscore;
    [in_run] tells that the previous character was reserved. *)
Fixpoint squeeze_from (in_run : bool) (s : str) : str :=
  match s with
  | [] => []
  | c :: s' =>
      if is_reserved c
      then (if in_run then [] else lit "_") ++ squeeze_from true s'
      else c :: squeeze_from false s'
  end.

Definition squeeze_reserved (s : str) : str := squeeze_from false s.

Definition or_default (s : str) : str :=
  if bool_decide (s = []) then lit "document" else s.

(** Sanitization as the specification words it: trim, replace each
    reserved character by an underscore, strip trailing dots and spaces,
    default when empty. *)
Definition sanitize_as_specified (name : str) : str :=
  or_default
    (rstrip_chars dot_or_space
       ((λ c, if is_reserved c then 95 else c) <$> strip name)).

(** Name choice as the specification words it: the first non-empty value
    among the conventional fields, sanitized. *)
Fixpoint choose_as_specified (row : gmap (list N) (list N)) (index : Z)
  (keys : list str) : str :=
  match keys with
  | [] => lit "document_" ++ format_04d index
  | key :: keys' =>
      match row !! key with
      | Some (c :: v) => _sanitize_filename (c :: v)
      | _ => choose_as_specified row index keys'
      end
  end.

(** The first pass of [render_template]: the substituted text and the
    names recorded by the callback. *)
Definition first_pass (row : gmap (list N) (list N)) (t : str)
  : str * list str :=
  re_sub PLACEHOLDER_RE (repl row) [] t.

(** How far the steps before the loop get. *)
Definition selected (inp : Inputs) : Prop := files_resolved inp = Return tt.

Definition resolved (inp : Inputs) : Prop :=
  selected inp ∧ ∃ out, out_dir inp = Return out.

Definition csv_found (inp : Inputs) : Prop :=
  resolved inp ∧ csv_exists inp = Return true.

Definition template_found (inp : Inputs) : Prop :=
  csv_found inp ∧ template_exists inp = Return true.

Definition template_checked (inp : Inputs) : Prop :=
  template_found inp ∧ template_is_file inp = Return true.

Definition template_loaded (inp : Inputs) : Prop :=
  template_checked inp ∧ ∃ t, template_read inp = Return t.

Definition records_loaded (inp : Inputs) : Prop :=
  template_loaded inp ∧ ∃ rows, csv_loaded inp = Return rows.

(** The inputs of a run are all usable. *)
Definition inputs_ok (inp : Inputs) : Prop :=
  records_loaded inp ∧ out_dir_made inp = Return tt.

(** A fatal input failure that the program reports: an input file was
    not found when it was selected; or the record source or the template
    is missing, or the template is not a file; or the template or the
    record source cannot be read or decoded; or the output directory
    cannot be created. *)
Definition input_failure (inp : Inputs) : Prop :=
  (∃ e, files_resolved inp = Raise e ∧ exn_cls e = FileNotFoundError)
  ∨ (resolved inp ∧ csv_exists inp = Return false)
  ∨ (csv_found inp ∧ template_exists inp = Return false)
  ∨ (template_found inp ∧ template_is_file inp = Return false)
  ∨ (template_checked inp ∧ ∃ e, template_read inp = Raise e)
  ∨ (template_loaded inp ∧ ∃ e, csv_loaded inp = Raise e)
  ∨ (records_loaded inp ∧ ∃ e, out_dir_made inp = Raise e).

(** A fatal input failure that no handler of [main] covers: the
    selection raises something else than [FileNotFoundError]; or the
    path of the output directory cannot be resolved; or a check of an
    input path raises. *)
Definition unhandled_input_failure (inp : Inputs) (e : exn) : Prop :=
  (files_resolved inp = Raise e ∧ exn_cls e ≠ FileNotFoundError)
  ∨ (selected inp ∧ out_dir inp = Raise e)
  ∨ (resolved inp ∧ csv_exists inp = Raise e)
  ∨ (csv_found inp ∧ template_exists inp = Raise e)
  ∨ (template_found inp ∧ template_is_file inp = Raise e).

(** The output path of record number [idx]. *)
Definition out_path (out : str) (idx : Z) (row : gmap (list N) (list N)) : Path :=
  path_join out (_choose_output_filename row idx ++ lit ".pdf").

(** Paths of the records of a batch, numbered from [idx]. *)
Fixpoint out_paths (out : str) (idx : Z) (rows : list (gmap (list N) (list N)))
  : list Path :=
  match rows with
  | [] => []
  | row :: rows' => out_path out idx row :: out_paths out (idx + 1) rows'
  end.

(** A backend for the examples: the world counts the calls, and the call
    numbered [bad] (from zero) reports a conversion error. *)
Definition failing_at (bad : nat) (w : nat) (_ : str) (_ : Path)
  : nat * backend_outcome :=
  (S w, if decide (w = bad) then Created 2 else Created 0).

(** Reading an entry of the attempts. *)
Definition succeeded (a : Path * bool) : bool := a.2.
Definition failed (a : Path * bool) : bool := negb a.2.

(** Text without an opening brace holds no placeholder and no literal
    [{{generated_at}}]. *)
Definition plain (s : str) : Prop := Forall (λ c, c ≠ 123) s.

(** The number a string of decimal digits stands for. *)
Definition decimal_value (s : str) : N :=
  fold_left (λ acc c, 10 * acc + (c - 48)) s 0.

Definition is_digit (c : char) : bool := between 48 57 c.

(** A batch of three records and the inputs of a run over it; the same
    inputs with a template file that is not UTF-8. *)
Definition example_rows : list (gmap (list N) (list N)) :=
  [{[lit "name" := lit "Ann"]}; {[lit "name" := lit "Bob"]};
   {[lit "id" := lit "7/c"]}].

Definition example_inputs : Inputs :=
  {| files_resolved := Return tt;
     out_dir := Return (lit "/out");
     csv_exists := Return true;
     template_exists := Return true;
     template_is_file := Return true;
     template_read := Return (lit "<html><body>{{name}}</body></html>");
     csv_loaded := Return example_rows;
     out_dir_made := Return tt |}.

Definition undecodable_inputs : Inputs :=
  {| files_resolved := Return tt;
     out_dir := Return (lit "/out");
     csv_exists := Return true;
     template_exists := Return true;
     template_is_file := Return true;
     template_read := Raise (Exn UnicodeDecodeError [Words (lit "invalid start byte")]);
     csv_loaded := Return example_rows;
     out_dir_made := Return tt |}.

(** The run of [--out ~nosuchuser/out] with good input files:
    [expanduser] finds no home directory for the user. *)
Definition homeless_inputs : Inputs :=
  {| files_resolved := Return tt;
     out_dir := Raise (Exn RuntimeError [Words (lit "Could not determine home directory.")]);
     csv_exists := Return true;
     template_exists := Return true;
     template_is_file := Return true;
     template_read := Return (lit "<html><body>{{name}}</body></html>");
     csv_loaded := Return example_rows;
     out_dir_made := Return tt |}.

(** The returned text is the substituted text: every placeholder stands
    replaced by the value of its name, or by nothing, and the values are
    in the text as they are in the record. *)
Definition html_as_substituted (now t : str) (row : gmap (list N) (list N))
  : Prop :=
  ∃ out names,
    Substituted row t out names ∧ html (render_template now t row) = out.

(** The returned names are the names recorded by the substitution. *)
Definition names_as_recorded (now t : str) (row : gmap (list N) (list N))
  : Prop :=
  ∃ out names,
    Substituted row t out names
    ∧ ∀ n, n ∈ missing_placeholders (render_template now t row) ↔ n ∈ names.

(** Two opening braces in a row: what every placeholder starts with. *)
Definition double_brace : str := lit "{{".

(** The characters a placeholder token is made of: the two braces,
    whitespace and the characters of a name. *)
Definition token_char (c : char) : bool :=
  eqc 123 c || eqc 125 c || isspace c || is_word c.

(** No placeholder of [a ++ b] starts in [a] and ends in [b]. *)
Definition no_span (a b : str) : Prop :=
  ∀ pre s tok key rest,
    a = pre ++ s → s ≠ [] → s ++ b = tok ++ rest → is_placeholder tok key →
    (length tok ≤ length s)%nat.

(** No occurrence of the literal [old] in [a ++ b] starts in [a] and
    ends in [b]. *)
Definition literal_no_span (old a b : str) : Prop :=
  ∀ pre s,
    a = pre ++ s → s ≠ [] → startswith old (s ++ b) = true →
    startswith old s = true.

(** A name a placeholder can carry. *)
Definition is_name (n : str) : Prop := n ≠ [] ∧ all_of is_word n.

(** The record has a usable naming field: one of the conventional keys
    holds a value that is not blank. *)
Definition has_naming_field (row : gmap (list N) (list N)) : Prop :=
  ∃ k, k ∈ name_keys ∧ strip (default [] (row !! k)) ≠ [].

(** A fixed clock reading for the examples. *)
Definition t0 : str := lit "2026-01-02 03:04:05".

(** What an atom may consume. *)
Definition atom_ok (a : Re.atom) (g : str) : Prop :=
  match a with
  | Re.One p => ∃ c, g = [c] ∧ p c = true
  | Re.Star p => all_of p g
  | Re.Plus p => g ≠ [] ∧ all_of p g
  end.

(** [s] does not continue a run of the class [p]. *)
Definition stops (p : char → bool) (s : str) : Prop :=
  match s with
  | [] => True
  | c :: _ => p c = false
  end.

(** Every run of the split [gs] is as long as it can be. *)
Fixpoint maximal (r : Re.regex) (gs : list str) (rest : str) : Prop :=
  match r, gs with
  | Re.One _ :: r', _ :: gs' => maximal r' gs' rest
  | Re.Star p :: r', _ :: gs' => stops p (concat gs' ++ rest) ∧ maximal r' gs' rest
  | Re.Plus p :: r', _ :: gs' => stops p (concat gs' ++ rest) ∧ maximal r' gs' rest
  | _, _ => True
  end.

(** Splits a match of a concrete pattern into the texts of its atoms. *)
Ltac invert_match :=
  repeat match goal with
         | H : Forall2 _ (_ :: _) _ |- _ => inversion H; clear H; subst
         | H : Forall2 _ [] _ |- _ => inversion H; clear H; subst
         end;
  simpl in *;
  repeat match goal with
         | H : ∃ _, _ |- _ => destruct H as (? & -> & ?)
         end;
  unfold chr, eqc in *;
  repeat match goal with
         | H : (_ =? N_of_ascii _) = true |- _ => apply N.eqb_eq in H; subst
         end.

(** * Facts about the library model *)

Section re_facts.
Implicit Types (p : char → bool) (r : Re.regex) (s g rest : str) (gs : list str).

Lemma greedy_sound p (k : str → option Re.result) s g res :
  Re.greedy p k s = Some (g, res) →
  all_of p g ∧ ∃ s2, s = g ++ s2 ∧ k s2 = Some res.
Proof.
  revert g res. induction s as [|c s IH]; intros g res; simpl.
  - destruct (k []) as [res'|] eqn:Hk; simpl; [|done].
    intros [= <- <-]. split; [constructor|]. by exists [].
  - destruct (p c) eqn:Hp.
    + destruct (Re.greedy p k s) as [[g' res']|] eqn:Hg.
      * intros [= <- <-]. destruct (IH _ _ eq_refl) as (Hall & s2 & -> & Hk).
        split; [by constructor|]. by exists s2.
      * destruct (k (c :: s)) as [res'|] eqn:Hk; simpl; [|done].
        intros [= <- <-]. split; [constructor|]. by exists (c :: s).
    + destruct (k (c :: s)) as [res'|] eqn:Hk; simpl; [|done].
      intros [= <- <-]. split; [constructor|]. by exists (c :: s).
Qed.

Lemma greedy_complete p (k : str → option Re.result) g s2 res :
  all_of p g → stops p s2 → k s2 = Some res →
  Re.greedy p k (g ++ s2) = Some (g, res).
Proof.
  intros Hall Hstop Hk. induction Hall as [|c g Hc _ IH]; simpl.
  - destruct s2 as [|c s2]; simpl in *; [by rewrite Hk|].
    by rewrite Hstop, Hk.
  - by rewrite Hc, IH.
Qed.

Lemma match_at_sound r : ∀ s gs rest,
  Re.match_at r s = Some (gs, rest) →
  s = concat gs ++ rest ∧ Forall2 atom_ok r gs.
Proof.
  induction r as [|a r IH]; intros s gs rest; simpl.
  - intros [= <- <-]. by split; [|constructor].
  - destruct a as [p|p|p].
    + destruct s as [|c s]; [done|]. destruct (p c) eqn:Hp; [|done].
      destruct (Re.match_at r s) as [[gs' rest']|] eqn:Hm; simpl; [|done].
      intros [= <- <-]. destruct (IH _ _ _ Hm) as [-> HF].
      split; [done|]. constructor; [by exists c|done].
    + destruct (Re.greedy p (Re.match_at r) s) as [[g [gs' rest']]|] eqn:Hg;
        simpl; [|done].
      intros [= <- <-]. apply greedy_sound in Hg as (Hall & s2 & -> & Hm).
      destruct (IH _ _ _ Hm) as [-> HF]. split.
      * simpl. by rewrite (assoc_L (++)).
      * by constructor.
    + destruct s as [|c s]; [done|]. destruct (p c) eqn:Hp; [|done].
      destruct (Re.greedy p (Re.match_at r) s) as [[g [gs' rest']]|] eqn:Hg;
        simpl; [|done].
      intros [= <- <-]. apply greedy_sound in Hg as (Hall & s2 & -> & Hm).
      destruct (IH _ _ _ Hm) as [-> HF]. split.
      * simpl. by rewrite (assoc_L (++)).
      * constructor; [|done]. split; [done|by constructor].
Qed.

Lemma match_at_complete r : ∀ gs rest,
  Forall2 atom_ok r gs → maximal r gs rest →
  Re.match_at r (concat gs ++ rest) = Some (gs, rest).
Proof.
  induction r as [|a r IH]; intros gs rest HF Hmax.
  - by inversion HF.
  - inversion HF as [|? g ? gs' Ha HF']; subst. simpl in Hmax.
    destruct a as [p|p|p]; simpl in Ha |- *.
    + destruct Ha as (c & -> & Hc). simpl. by rewrite Hc, (IH _ _ HF' Hmax).
    + destruct Hmax as [Hstop Hmax]. rewrite <-(assoc_L (++)).
      by rewrite (greedy_complete _ _ _ _ _ Ha Hstop (IH _ _ HF' Hmax)).
    + destruct Hmax as [Hstop Hmax]. destruct Ha as [Hne Ha].
      destruct g as [|c g]; [done|]. inversion Ha as [|? ? Hc Hg]; subst.
      simpl. rewrite Hc, <-(assoc_L (++)).
      by rewrite (greedy_complete _ _ _ _ _ Hg Hstop (IH _ _ HF' Hmax)).
Qed.

(** [re.search] finds the leftmost match. *)
Lemma search_Some r s pre gs rest :
  Re.search r s = Some (pre, gs, rest) →
  s = pre ++ concat gs ++ rest
  ∧ Re.match_at r (concat gs ++ rest) = Some (gs, rest)
  ∧ ∀ pre' t, s = pre' ++ t → (length pre' < length pre)%nat →
      Re.match_at r t = None.
Proof.
  revert pre. induction s as [|c s IH]; intros pre; simpl.
  - destruct (Re.match_at r []) as [[gs' rest']|] eqn:Hm; [|done].
    intros [= <- <- <-]. pose proof (match_at_sound _ _ _ _ Hm) as [Heq _].
    split; [done|]. split; [by rewrite <-Heq|]. simpl. lia.
  - destruct (Re.match_at r (c :: s)) as [[gs' rest']|] eqn:Hm.
    + intros [= <- <- <-]. pose proof (match_at_sound _ _ _ _ Hm) as [Heq _].
      split; [done|]. split; [by rewrite <-Heq|]. simpl. lia.
    + destruct (Re.search r s) as [[[pre0 gs0] rest0]|] eqn:Hs; simpl; [|done].
      intros [= <- <- <-]. destruct (IH _ eq_refl) as (-> & Hm0 & Hleft).
      split; [done|]. split; [done|].
      intros pre' t Heq Hlen. destruct pre' as [|c' pre'].
      * simpl in Heq. by subst t.
      * simpl in Heq, Hlen. injection Heq as -> Heq. apply (Hleft pre'); [done|lia].
Qed.

Lemma search_None r s :
  Re.search r s = None → ∀ pre t, s = pre ++ t → Re.match_at r t = None.
Proof.
  induction s as [|c s IH]; simpl.
  - destruct (Re.match_at r []) as [[gs' rest']|] eqn:Hm; [done|].
    intros _ pre t Heq. symmetry in Heq. apply app_eq_nil in Heq as [_ ->]. done.
  - destruct (Re.match_at r (c :: s)) as [[gs' rest']|] eqn:Hm; [done|].
    destruct (Re.search r s) as [[[pre0 gs0] rest0]|] eqn:Hs; simpl; [done|].
    intros _ pre t Heq. destruct pre as [|c' pre].
    + simpl in Heq. by subst t.
    + simpl in Heq. injection Heq as -> Heq. by apply (IH eq_refl pre).
Qed.

End re_facts.

Section scan_facts.
Context {A : Type} (m : str → option (A * str)).

Lemma scan_skip x rest : scan m (length x) (x ++ rest) = scan m 0 rest.
Proof. induction x as [|c x IH]; [done|]. simpl. apply IH. Qed.

Lemma scan_miss c s :
  m (c :: s) = None → scan m 0 (c :: s) = Text c :: scan m 0 s.
Proof. intros Hm. simpl. by rewrite Hm. Qed.

Lemma scan_hit a x rest :
  x ≠ [] → m (x ++ rest) = Some (a, rest) →
  scan m 0 (x ++ rest) = Hit a :: scan m 0 rest.
Proof.
  intros Hx Hm. destruct x as [|c x]; [done|].
  change (scan m 0 ((c :: x) ++ rest)) with
    (match m ((c :: x) ++ rest) with
     | Some (a, rest') =>
         Hit a :: match (length ((c :: x) ++ rest) - length rest')%nat with
                  | O => Text c :: scan m 0 (x ++ rest)
                  | S n => scan m n (x ++ rest)
                  end
     | None => Text c :: scan m 0 (x ++ rest)
     end).
  rewrite Hm. replace (length ((c :: x) ++ rest) - length rest)%nat
    with (S (length x)) by (simpl; rewrite length_app; lia).
  by rewrite scan_skip.
Qed.

(** Without a match anywhere the subject is rebuilt unchanged. *)
Lemma substitute_no_hit {St} (f : St → A → str * St) st s :
  (∀ pre t, s = pre ++ t → m t = None) →
  substitute f st (scan m 0 s) = (s, st).
Proof.
  induction s as [|c s IH]; intros Hno.
  - simpl. by rewrite (Hno [] []).
  - rewrite scan_miss by (by apply (Hno [])). simpl.
    rewrite IH; [done|]. intros pre t ->. by apply (Hno (c :: pre)).
Qed.
End scan_facts.

Section string_facts.
Implicit Types (s old new : str).

Lemma startswith_spec old s :
  startswith old s = true ↔ ∃ post, s = old ++ post.
Proof.
  revert s. induction old as [|x old IH]; intros s; simpl.
  - split; [by exists s|done].
  - destruct s as [|c s].
    + split; [done|]. by intros [post ?].
    + rewrite andb_true_iff, N.eqb_eq, IH. split.
      * intros [-> [post ->]]. by exists post.
      * intros [post [= -> ->]]. split; [done|by exists post].
Qed.

Lemma contains_spec old s :
  contains old s = true ↔ ∃ pre post, s = pre ++ old ++ post.
Proof.
  induction s as [|c s IH]; simpl.
  - rewrite orb_false_r, startswith_spec. split.
    + intros [post ->]. by exists [], post.
    + intros (pre & post & Heq). destruct pre; [by exists post|done].
  - rewrite orb_true_iff, startswith_spec, IH. split.
    + intros [[post ->]|(pre & post & ->)]; [by exists [], post|].
      by exists (c :: pre), post.
    + intros (pre & post & Heq). destruct pre as [|c' pre].
      * left. by exists post.
      * injection Heq as -> ->. right. by exists pre, post.
Qed.

(** [str.replace] leaves a text without occurrence of [old] as it is. *)
Lemma str_replace_absent old new s :
  contains old s = false → str_replace old new s = s.
Proof.
  intros Hc. unfold str_replace. rewrite substitute_no_hit; [done|].
  intros pre t ->. destruct (startswith old t) eqn:Hs; [|done].
  apply startswith_spec in Hs as [post ->].
  assert (contains old (pre ++ old ++ post) = true) as Hin
    by (apply contains_spec; by exists pre, post).
  congruence.
Qed.

Lemma lstrip_chars_suffix p s : ∃ pre, s = pre ++ lstrip_chars p s.
Proof.
  induction s as [|c s [pre IH]]; simpl; [by exists []|].
  destruct (p c); [|by exists []]. exists (c :: pre). by rewrite IH at 1.
Qed.

Lemma Forall_lstrip_chars (P : N → Prop) p s :
  Forall P s → Forall P (lstrip_chars p s).
Proof.
  destruct (lstrip_chars_suffix p s) as [pre Heq]. rewrite Heq at 1.
  by intros [_ ?]%Forall_app.
Qed.

Lemma Forall_rstrip_chars (P : N → Prop) p s :
  Forall P s → Forall P (rstrip_chars p s).
Proof.
  intros H. unfold rstrip_chars. apply Forall_rev, Forall_lstrip_chars.
  by apply Forall_rev.
Qed.

Lemma Forall_strip (P : N → Prop) s : Forall P s → Forall P (strip s).
Proof. intros H. by apply Forall_rstrip_chars, Forall_lstrip_chars. Qed.
End string_facts.

(** * Placeholder resolver *)

Section placeholder_facts.
Implicit Types (row : gmap (list N) (list N)) (t tok key out : str).

Lemma word_not_space c : is_word c = true → isspace c = false.
Proof.
  unfold is_word, isspace, between, eqc.
  rewrite !orb_true_iff, !andb_true_iff, !orb_false_iff, !andb_false_iff,
    !N.leb_le, !N.eqb_eq, !N.leb_gt, !N.eqb_neq. lia.
Qed.

Lemma space_not_word c : isspace c = true → is_word c = false.
Proof.
  intros Hs. destruct (is_word c) eqn:Hw; [|done].
  apply word_not_space in Hw. congruence.
Qed.

(** The pattern matches at a placeholder token, with the name as group 1. *)
Lemma placeholder_match tok key rest :
  is_placeholder tok key →
  ∃ gs, Re.match_at PLACEHOLDER_RE (tok ++ rest) = Some (gs, rest)
        ∧ group1 gs = key ∧ concat gs = tok.
Proof.
  intros (ws1 & ws2 & -> & Hws1 & Hne & Hkey & Hws2).
  exists [[123]; [123]; ws1; key; ws2; [125]; [125]].
  split; [|split; [done|]].
  - replace ((lit "{{" ++ ws1 ++ key ++ ws2 ++ lit "}}") ++ rest)
      with (concat [[123]; [123]; ws1; key; ws2; [125]; [125]] ++ rest)
      by (simpl; rewrite <-?app_assoc; done).
    apply match_at_complete.
    + repeat constructor; try done; by eexists.
    + simpl. repeat split.
      * destruct key as [|c key]; [done|]. simpl.
        inversion Hkey; subst. by apply word_not_space.
      * destruct ws2 as [|c ws2]; simpl; [done|].
        inversion Hws2; subst. by apply space_not_word.
  - simpl. by rewrite ?app_nil_r.
Qed.

(** Where the pattern matches, a placeholder token stands. *)
Lemma match_placeholder t gs rest :
  Re.match_at PLACEHOLDER_RE t = Some (gs, rest) →
  t = concat gs ++ rest ∧ is_placeholder (concat gs) (group1 gs).
Proof.
  intros [-> HF]%match_at_sound. split; [done|].
  unfold PLACEHOLDER_RE in HF.
  repeat match goal with
         | H : Forall2 _ (_ :: _) _ |- _ => inversion H; clear H; subst
         | H : Forall2 _ [] _ |- _ => inversion H; clear H; subst
         end.
  simpl in *.
  repeat match goal with
         | H : ∃ _, _ |- _ => destruct H as (? & -> & ?)
         | H : _ ∧ _ |- _ => destruct H
         end.
  unfold chr, eqc in *.
  repeat match goal with
         | H : (_ =? _) = true |- _ => apply N.eqb_eq in H; subst
         end.
  eexists _, _. split; [reflexivity|]. simpl. done.
Qed.

Lemma no_match_no_placeholder t :
  Re.match_at PLACEHOLDER_RE t = None ↔ ¬ placeholder_at t.
Proof.
  split.
  - intros Hm (tok & key & rest & -> & Htok).
    destruct (placeholder_match _ _ rest Htok) as (gs & Hgs & _). congruence.
  - intros Hno. destruct (Re.match_at PLACEHOLDER_RE t) as [[gs rest]|] eqn:Hm;
      [|done].
    destruct Hno. apply match_placeholder in Hm as [-> Htok].
    by eexists _, _, _.
Qed.

Lemma is_placeholder_nonempty tok key : is_placeholder tok key → tok ≠ [].
Proof. by intros (ws1 & ws2 & -> & _). Qed.

(** The callback only ever appends to the list it is given. *)
Lemma repl_acc row (st : list str) gs :
  repl row st gs = ((repl row [] gs).1, st ++ (repl row [] gs).2).
Proof.
  unfold repl. destruct (row !! group1 gs); simpl; [|done].
  by rewrite app_nil_r.
Qed.

Lemma substitute_repl_acc row (st : list str) ps :
  substitute (repl row) st ps =
  ((substitute (repl row) [] ps).1, st ++ (substitute (repl row) [] ps).2).
Proof.
  revert st. induction ps as [|[c|gs] ps IH]; intros st; simpl.
  - by rewrite app_nil_r.
  - rewrite (IH st), (IH []).
    by destruct (substitute (repl row) [] ps).
  - rewrite (repl_acc row st gs).
    destruct (repl row [] gs) as [v st1]. simpl.
    rewrite (IH (st ++ st1)), (IH st1).
    destruct (substitute (repl row) [] ps). simpl.
    by rewrite (assoc_L (++)).
Qed.

Lemma first_pass_char row c t :
  ¬ placeholder_at (c :: t) →
  first_pass row (c :: t) = (c :: (first_pass row t).1, (first_pass row t).2).
Proof.
  intros Hno%no_match_no_placeholder. unfold first_pass, re_sub.
  rewrite scan_miss by done. simpl.
  by destruct (substitute _ _ _).
Qed.

Lemma first_pass_token row tok key t :
  is_placeholder tok key →
  first_pass row (tok ++ t) =
  match row !! key with
  | Some v => (v ++ (first_pass row t).1, (first_pass row t).2)
  | None => ((first_pass row t).1, key :: (first_pass row t).2)
  end.
Proof.
  intros Htok. destruct (placeholder_match _ _ t Htok) as (gs & Hm & Hkey & Hcat).
  unfold first_pass, re_sub.
  rewrite (scan_hit _ gs tok t (is_placeholder_nonempty _ _ Htok) Hm). simpl.
  unfold repl at 1. rewrite Hkey. destruct (row !! key) as [v|].
  - by destruct (substitute _ _ _).
  - rewrite substitute_repl_acc. done.
Qed.

(** The first pass of [render_template] is the substitution of the
    specification, and the only one. *)
Lemma Substituted_first_pass row t out names :
  Substituted row t out names → first_pass row t = (out, names).
Proof.
  induction 1 as [|c t out names Hno _ IH|tok key v t out names Htok Hv _ IH
                  |tok key t out names Htok Hv _ IH].
  - done.
  - by rewrite first_pass_char, IH.
  - by rewrite (first_pass_token _ _ _ _ Htok), Hv, IH.
  - by rewrite (first_pass_token _ _ _ _ Htok), Hv, IH.
Qed.

Lemma first_pass_Substituted row t :
  Substituted row t (first_pass row t).1 (first_pass row t).2.
Proof.
  assert (∀ n t, length t = n →
    Substituted row t (first_pass row t).1 (first_pass row t).2) as Hall.
  { clear t. intros n. induction (lt_wf n) as [n _ IH]. intros t Hlen.
    destruct t as [|c t]; [constructor|].
    destruct (Re.match_at PLACEHOLDER_RE (c :: t)) as [[gs rest]|] eqn:Hm.
    - apply match_placeholder in Hm as [Heq Htok]. rewrite Heq.
      rewrite (first_pass_token _ _ _ _ Htok).
      assert (length rest < n)%nat as Hlt.
      { rewrite <-Hlen, Heq, length_app.
        pose proof (is_placeholder_nonempty _ _ Htok).
        destruct (concat gs); [done|simpl; lia]. }
      pose proof (IH _ Hlt rest eq_refl) as Hrest.
      destruct (row !! group1 gs) as [v|] eqn:Hv; simpl.
      + by apply (Sub_value _ _ (group1 gs) v).
      + by apply Sub_missing.
    - apply no_match_no_placeholder in Hm.
      rewrite (first_pass_char _ _ _ Hm). simpl.
      apply Sub_char; [done|]. apply (IH (length t)); [simpl in Hlen; lia|done]. }
  by apply (Hall (length t)).
Qed.
End placeholder_facts.

Section sorted_set_facts.
Implicit Types (a b c : str) (l : list str).

Lemma str_leb_cons x a y b :
  str_leb (x :: a) (y :: b) = true ↔ (x < y) ∨ (x = y ∧ str_leb a b = true).
Proof. simpl. by rewrite orb_true_iff, andb_true_iff, N.ltb_lt, N.eqb_eq. Qed.

Global Instance str_le_total : Total str_le.
Proof.
  intros a. unfold str_le. induction a as [|x a IH]; intros [|y b];
    [by left|by left|by right|].
  rewrite !str_leb_cons. destruct (IH b); destruct (N.lt_total x y) as [|[|]];
    subst; auto with lia.
Qed.

Global Instance str_le_trans : Transitive str_le.
Proof.
  intros a. unfold str_le. induction a as [|x a IH]; intros [|y b] [|z c];
    try done.
  rewrite !str_leb_cons. intros [?|[-> ?]] [?|[-> ?]]; eauto with lia.
Qed.

Lemma elem_of_sorted_set l a : a ∈ sorted_set l ↔ a ∈ l.
Proof.
  unfold sorted_set. by rewrite merge_sort_Permutation, elem_of_remove_dups.
Qed.

Lemma NoDup_sorted_set l : NoDup (sorted_set l).
Proof.
  unfold sorted_set. rewrite merge_sort_Permutation. apply NoDup_remove_dups.
Qed.

Lemma sorted_sorted_set l : StronglySorted str_le (sorted_set l).
Proof. apply StronglySorted_merge_sort; apply _. Qed.

Lemma elem_of_list_remove_first x a l :
  a ∈ list_remove_first x l → a ∈ l.
Proof.
  induction l as [|y l IH]; simpl; [done|]. case_decide.
  - by right.
  - intros [->|?]%elem_of_cons; [by left|right; auto].
Qed.

Lemma elem_of_list_remove_first_ne x a l :
  a ≠ x → a ∈ l → a ∈ list_remove_first x l.
Proof.
  intros Hne. induction l as [|y l IH]; simpl; [done|]. case_decide.
  - subst y. by intros [->|?]%elem_of_cons.
  - intros [->|?]%elem_of_cons; [by left|right; auto].
Qed.
End sorted_set_facts.

Section render_facts.
Implicit Types (row : gmap (list N) (list N)) (t now out : str).

(** [render_template] in terms of its first pass. *)
Lemma render_template_passes now t row :
  render_template now t row =
  {| html := str_replace generated_at_token now (first_pass row t).1;
     missing_placeholders :=
       sorted_set
         (if bool_decide (generated_at ∈ (first_pass row t).2)
          then list_remove_first generated_at (first_pass row t).2
          else (first_pass row t).2) |}.
Proof.
  unfold render_template, first_pass.
  by destruct (re_sub PLACEHOLDER_RE (repl row) [] t).
Qed.

(** Only names that are not keys of the record are recorded. *)
Lemma Substituted_names row t out names :
  Substituted row t out names → ∀ n, n ∈ names → row !! n = None.
Proof.
  induction 1 as [| | |tok key t out names _ Hv _ IH]; try done.
  - by intros n ?%elem_of_nil.
  - intros n [->|?]%elem_of_cons; auto.
Qed.

Lemma render_template_html now t row out names :
  Substituted row t out names →
  html (render_template now t row) = str_replace generated_at_token now out.
Proof.
  intros Hsub%Substituted_first_pass. by rewrite render_template_passes, Hsub.
Qed.

Lemma render_template_missing now t row out names :
  Substituted row t out names → generated_at ∉ names →
  missing_placeholders (render_template now t row) = sorted_set names.
Proof.
  intros Hsub%Substituted_first_pass Hga.
  rewrite render_template_passes, Hsub. simpl. by rewrite bool_decide_false.
Qed.

Lemma render_template_missing_sub now t row out names n :
  Substituted row t out names →
  n ∈ missing_placeholders (render_template now t row) → n ∈ names.
Proof.
  intros Hsub%Substituted_first_pass.
  rewrite render_template_passes, Hsub. simpl. rewrite elem_of_sorted_set.
  case_bool_decide; [apply elem_of_list_remove_first|done].
Qed.

(** A name other than the reserved one is reported exactly when it was
    recorded. *)
Lemma elem_of_report_ne now t row out names n :
  Substituted row t out names → n ≠ generated_at →
  n ∈ missing_placeholders (render_template now t row) ↔ n ∈ names.
Proof.
  intros Hsub%Substituted_first_pass Hne.
  rewrite render_template_passes, Hsub. simpl. rewrite elem_of_sorted_set.
  case_bool_decide; [|done]. split.
  - apply elem_of_list_remove_first.
  - by apply elem_of_list_remove_first_ne.
Qed.
End render_facts.

(** * Style composer *)

(** A pattern [r] and the language [L] it stands for: [L] is matched at
    the head of any text that starts with one of its words, by exactly
    that word. *)
Section search_language.
Variables (r : Re.regex) (L : str → Prop).
Hypothesis L_match : ∀ m rest,
  L m → ∃ gs, Re.match_at r (m ++ rest) = Some (gs, rest) ∧ concat gs = m.
Hypothesis match_L : ∀ t gs rest,
  Re.match_at r t = Some (gs, rest) → L (concat gs).

Lemma search_first_occurrence s pre gs rest :
  Re.search r s = Some (pre, gs, rest) →
  first_occurrence L s pre (concat gs) rest.
Proof.
  intros (Heq & Hm & Hleft)%search_Some. split; [done|].
  split; [by eapply match_L|].
  intros pre' m' post' Heq' HL.
  destruct (decide (length pre ≤ length pre')%nat) as [|Hlt]; [done|].
  destruct (L_match m' post' HL) as (gs' & Hm' & _).
  rewrite (Hleft pre' (m' ++ post')) in Hm'; [done|done|lia].
Qed.

Lemma search_None_occurs s : Re.search r s = None ↔ ¬ occurs L s.
Proof.
  split.
  - intros Hs (pre & m & post & Heq & HL).
    destruct (L_match m post HL) as (gs & Hm & _).
    by rewrite (search_None _ _ Hs pre (m ++ post)) in Hm.
  - intros Hno. destruct (Re.search r s) as [[[pre gs] rest]|] eqn:Hs; [|done].
    destruct Hno. apply search_first_occurrence in Hs as (Heq & HL & _).
    by eexists _, _, _.
Qed.

Lemma first_occurrence_search s pre m post :
  first_occurrence L s pre m post →
  ∃ gs, Re.search r s = Some (pre, gs, post) ∧ concat gs = m.
Proof.
  intros (Heq & HL & Hmin).
  destruct (Re.search r s) as [[[pre0 gs0] rest0]|] eqn:Hs.
  - pose proof (search_first_occurrence _ _ _ _ Hs) as (Heq0 & HL0 & Hmin0).
    apply search_Some in Hs as (_ & Hm0 & _).
    pose proof (Hmin _ _ _ Heq0 HL0). pose proof (Hmin0 _ _ _ Heq HL).
    assert (pre = pre0 ∧ m ++ post = concat gs0 ++ rest0) as [-> Htail].
    { apply app_inj_1; [lia|congruence]. }
    destruct (L_match m post HL) as (gs & Hm & Hcat).
    rewrite Htail, Hm0 in Hm. injection Hm as <- <-. by exists gs0.
  - apply search_None_occurs in Hs. destruct Hs. by exists pre, m, post.
Qed.
End search_language.

Section style_facts.
Implicit Types (html css m : str).

Lemma same_letters_4 tag a b c d :
  same_letters tag [a; b; c; d] →
  ∃ a' b' c' d', tag = [a'; b'; c'; d'] ∧ is_ci a a' = true
    ∧ is_ci b b' = true ∧ is_ci c c' = true ∧ is_ci d d' = true.
Proof.
  unfold same_letters. intros H.
  repeat match goal with
         | H : Forall2 _ _ (_ :: _) |- _ => inversion H; clear H; subst
         | H : Forall2 _ _ [] |- _ => inversion H; clear H; subst
         end.
  by eexists _, _, _, _.
Qed.

Lemma close_head_match m rest :
  is_close_head m →
  ∃ gs, Re.match_at CLOSE_HEAD_RE (m ++ rest) = Some (gs, rest) ∧ concat gs = m.
Proof.
  intros (tag & ws & -> & (h & e & a & d & -> & ? & ? & ? & ?)%same_letters_4 & Hws).
  exists [[60]; [47]; [h]; [e]; [a]; [d]; ws; [62]]. split; [|done].
  replace ((lit "</" ++ [h; e; a; d] ++ ws ++ lit ">") ++ rest)
    with (concat [[60]; [47]; [h]; [e]; [a]; [d]; ws; [62]] ++ rest)
    by (simpl; rewrite <-?app_assoc; done).
  apply match_at_complete.
  - repeat constructor; try done; by eexists.
  - simpl. done.
Qed.

Lemma open_html_match m rest :
  is_open_html m →
  ∃ gs, Re.match_at OPEN_HTML_RE (m ++ rest) = Some (gs, rest) ∧ concat gs = m.
Proof.
  intros (tag & at' & -> & (h & t & m' & l & -> & ? & ? & ? & ?)%same_letters_4 & Hat).
  exists [[60]; [h]; [t]; [m']; [l]; at'; [62]]. split; [|done].
  replace ((lit "<" ++ [h; t; m'; l] ++ at' ++ lit ">") ++ rest)
    with (concat [[60]; [h]; [t]; [m']; [l]; at'; [62]] ++ rest)
    by (simpl; rewrite <-?app_assoc; done).
  apply match_at_complete.
  - repeat constructor; try done; by eexists.
  - simpl. done.
Qed.

Lemma match_close_head t gs rest :
  Re.match_at CLOSE_HEAD_RE t = Some (gs, rest) → is_close_head (concat gs).
Proof.
  intros [-> HF]%match_at_sound. unfold CLOSE_HEAD_RE in HF. invert_match.
  eexists [_; _; _; _], _. split; [reflexivity|].
  split; [by repeat constructor|done].
Qed.

Lemma match_open_html t gs rest :
  Re.match_at OPEN_HTML_RE t = Some (gs, rest) → is_open_html (concat gs).
Proof.
  intros [-> HF]%match_at_sound. unfold OPEN_HTML_RE in HF. invert_match.
  eexists [_; _; _; _], _. split; [reflexivity|].
  split; [by repeat constructor|done].
Qed.

(** Whatever the case, the block goes between two parts of the
    document, which are otherwise kept. *)
Lemma inject_css_shape html css :
  ∃ pre post l r,
    html = pre ++ post
    ∧ _inject_css_into_html html css = pre ++ l ++ style_block css ++ r ++ post
    ∧ (length l + length r ≤ 16)%nat.
Proof.
  unfold _inject_css_into_html.
  destruct (Re.search CLOSE_HEAD_RE html) as [m|].
  - exists (take (m_start m) html), (drop (m_start m) html), [], [].
    rewrite take_drop. split; [done|]. split; [done|simpl; lia].
  - destruct (Re.search OPEN_HTML_RE html) as [m|].
    + exists (take (m_end m) html), (drop (m_end m) html),
        (nl ++ lit "<head>" ++ nl), (lit "</head>" ++ nl).
      rewrite take_drop. split; [done|]. split; [|simpl; lia].
      by rewrite <-!(assoc_L (++)).
    + exists [], html, [], []. split; [done|]. split; [|simpl; lia].
      done.
Qed.
End style_facts.

(** * Output namer *)

Section namer_facts.
Implicit Types (s g rest name : str) (row : gmap (list N) (list N)).

(** At the end of a pattern a run takes every character it can. *)
Lemma greedy_last p (k : str → option Re.result) s :
  (∀ t, k t = Some ([], t)) →
  ∃ g rest, Re.greedy p k s = Some (g, ([], rest))
            ∧ s = g ++ rest ∧ all_of p g ∧ stops p rest.
Proof.
  intros Hk. induction s as [|c s (g & rest & IH & -> & Hg & Hstop)]; simpl.
  - rewrite Hk. simpl. exists [], [].
    split; [done|]. split; [done|]. split; [constructor|done].
  - destruct (p c) eqn:Hp.
    + rewrite IH. exists (c :: g), rest.
      split; [done|]. split; [done|]. split; [by constructor|done].
    + rewrite Hk. simpl. exists [], (c :: g ++ rest).
      split; [done|]. split; [done|]. split; [constructor|done].
Qed.

Lemma match_reserved c s :
  is_reserved c = true →
  ∃ g rest, Re.match_at RESERVED_RE (c :: s) = Some ([c :: g], rest)
            ∧ s = g ++ rest ∧ all_of is_reserved g ∧ stops is_reserved rest.
Proof.
  intros Hc.
  destruct (greedy_last is_reserved (λ t, Some ([], t)) s (λ _, eq_refl))
    as (g & rest & Hg & ? & ? & ?).
  exists g, rest. unfold RESERVED_RE. simpl. by rewrite Hc, Hg.
Qed.

Lemma squeeze_from_run g rest :
  all_of is_reserved g → squeeze_from true (g ++ rest) = squeeze_from true rest.
Proof. induction 1 as [|c g Hc _ IH]; simpl; [done|]. by rewrite Hc. Qed.

Lemma squeeze_from_stops b rest :
  stops is_reserved rest → squeeze_from b rest = squeeze_from false rest.
Proof. destruct rest as [|c rest]; simpl; [done|]. by intros ->. Qed.

(** The substitution of [_sanitize_filename] squeezes every run of
    reserved characters into one underscore. *)
Lemma reserved_sub_squeeze s :
  (re_sub RESERVED_RE (λ (_ : unit) _, (lit "_", tt)) tt s).1 = squeeze_reserved s.
Proof.
  unfold re_sub, squeeze_reserved.
  assert (∀ n s, length s = n →
    (substitute (λ (_ : unit) (_ : list str), (lit "_", tt)) tt
       (scan (Re.match_at RESERVED_RE) 0 s)).1 = squeeze_from false s) as Hall.
  { clear s. intros n. induction (lt_wf n) as [n _ IH]. intros s Hlen.
    destruct s as [|c s]; [done|]. destruct (is_reserved c) eqn:Hc.
    - destruct (match_reserved c s Hc) as (g & rest & Hm & -> & Hg & Hstop).
      rewrite (scan_hit _ [c :: g] (c :: g) rest) by done.
      simpl. rewrite Hc, squeeze_from_run, (squeeze_from_stops true) by done.
      rewrite <-(IH (length rest)); [|simpl in Hlen; rewrite length_app in Hlen; lia|done].
      by destruct (substitute _ _ _).
    - rewrite scan_miss by (unfold RESERVED_RE; simpl; by rewrite Hc).
      simpl. rewrite Hc. rewrite <-(IH (length s)); [|simpl in Hlen; lia|done].
      by destruct (substitute _ _ _). }
  by apply (Hall (length s)).
Qed.

Lemma squeeze_from_clean b s :
  Forall (λ c, is_reserved c = false) (squeeze_from b s).
Proof.
  revert b. induction s as [|c s IH]; intros b; simpl; [constructor|].
  destruct (is_reserved c) eqn:Hc.
  - destruct b; simpl; [done|]. by constructor.
  - by constructor.
Qed.

Lemma or_default_clean s :
  Forall (λ c, is_reserved c = false) s →
  Forall (λ c, is_reserved c = false) (or_default s).
Proof.
  intros Hs. unfold or_default. case_bool_decide; [|done].
  by repeat constructor.
Qed.

(** [_sanitize_filename] as a pipeline. *)
Lemma sanitize_filename_pipeline name :
  _sanitize_filename name =
  or_default (strip (rstrip_chars dot_or_space (squeeze_reserved (strip name)))).
Proof.
  unfold _sanitize_filename. case_bool_decide as Hempty.
  - by rewrite Hempty.
  - by rewrite reserved_sub_squeeze.
Qed.

Lemma choose_from_blank row index pre keys :
  (∀ k, k ∈ pre → strip (default [] (row !! k)) = []) →
  choose_from row index (pre ++ keys) = choose_from row index keys.
Proof.
  induction pre as [|k pre IH]; intros Hblank; simpl; [done|].
  rewrite (Hblank k) by (by left). simpl.
  apply IH. intros k' ?. apply Hblank. by right.
Qed.
End namer_facts.

(** * Batch orchestrator *)

Section batch_facts.
Context {World : Type}.
Variable backend : World → str → Path → World * backend_outcome.
Variable clock : World → str.
Variable open_file : World → Path → World.
Implicit Types (w : World) (rows : list (gmap (list N) (list N))).

Abbreviation render_rows := (render_rows backend clock).
Abbreviation attempts := (attempts backend clock).
Abbreviation main := (main backend clock open_file).

Lemma length_attempts tpl out w idx rows :
  length (attempts tpl out w idx rows) = length rows.
Proof.
  revert w idx. induction rows as [|row rows IH]; intros w idx; simpl; [done|].
  by rewrite IH.
Qed.

Lemma attempts_paths tpl out w idx rows :
  (attempts tpl out w idx rows).*1 = out_paths out idx rows.
Proof.
  revert w idx. induction rows as [|row rows IH]; intros w idx; simpl; [done|].
  by rewrite IH.
Qed.

Lemma render_rows_cons tpl out w idx row rows failures generated :
  render_rows tpl out w idx (row :: rows) failures generated =
  match html_to_pdf backend w (html (render_template (clock w) tpl row))
          (out_path out idx row) with
  | (w', Return _) =>
      render_rows tpl out w' (idx + 1) rows failures
        (generated ++ [out_path out idx row])
  | (w', Raise _) =>
      render_rows tpl out w' (idx + 1) rows (failures + 1) generated
  end.
Proof. done. Qed.

Lemma attempts_cons tpl out w idx row rows :
  attempts tpl out w idx (row :: rows) =
  let wr := html_to_pdf backend w (html (render_template (clock w) tpl row))
              (out_path out idx row) in
  (out_path out idx row, match wr.2 with Return _ => true | Raise _ => false end)
    :: attempts tpl out wr.1 (idx + 1) rows.
Proof. done. Qed.

(** The loop adds to its two accumulators what the attempts say. *)
Lemma render_rows_attempts tpl out w idx rows failures generated :
  (render_rows tpl out w idx rows failures generated).1.2
    = (failures + Z.of_nat (length (filter failed (attempts tpl out w idx rows))))%Z
  ∧ (render_rows tpl out w idx rows failures generated).2
    = generated ++ (filter succeeded (attempts tpl out w idx rows)).*1.
Proof.
  revert w idx failures generated.
  induction rows as [|row rows IH]; intros w idx failures generated.
  - simpl. split; [lia|by rewrite app_nil_r].
  - rewrite render_rows_cons, attempts_cons.
    destruct (html_to_pdf backend w _ _) as [w' [e|[]]]; cbn [fst snd].
    + destruct (IH w' (idx + 1)%Z (failures + 1)%Z generated) as [H1 H2].
      rewrite H1, H2.
      rewrite (filter_cons_True failed) by done.
      rewrite (filter_cons_False succeeded) by (by intros []).
      rewrite length_cons. split; [lia|done].
    + destruct (IH w' (idx + 1)%Z failures (generated ++ [out_path out idx row]))
        as [H1 H2].
      rewrite H1, H2.
      rewrite (filter_cons_False failed) by (by intros []).
      rewrite (filter_cons_True succeeded) by done.
      rewrite fmap_cons, <-(assoc_L (++)). done.
Qed.

Lemma length_filter_split (att : list (Path * bool)) :
  (length (filter succeeded att) + length (filter failed att))%nat = length att.
Proof.
  induction att as [|[p []] att IH]; [done|..].
  - rewrite (filter_cons_True succeeded) by done.
    rewrite (filter_cons_False failed) by (by intros []).
    rewrite !length_cons. lia.
  - rewrite (filter_cons_False succeeded) by (by intros []).
    rewrite (filter_cons_True failed) by done.
    rewrite !length_cons. lia.
Qed.

Ltac open_inputs :=
  unfold inputs_ok, input_failure, unhandled_input_failure, records_loaded,
    template_loaded, template_checked, template_found, csv_found, resolved,
    selected in *;
  repeat match goal with
         | H : _ ∨ _ |- _ => destruct H
         | H : _ ∧ _ |- _ => destruct H
         | H : ∃ _, _ |- _ => destruct H
         end.

Ltac run_main :=
  unfold main, is_FileNotFoundError;
  repeat match goal with
         | H : _ = Return _ |- _ => rewrite H; clear H
         | H : _ = Raise _ |- _ => rewrite H; clear H
         | H : exn_cls _ = _ |- _ => rewrite H; clear H
         end.

(** Before the loop [main] ends with code 2 on a fatal input failure
    that it reports, in the world it started in. *)
Lemma main_input_failure inp w :
  input_failure inp → main inp w = (w, Exit 2).
Proof. intros H. open_inputs; by run_main. Qed.

(** A fatal input failure without a handler leaves [main] as the
    exception it raised, in the world the run started in. *)
Lemma main_unhandled_input_failure inp w e :
  unhandled_input_failure inp e → main inp w = (w, Uncaught e).
Proof.
  intros H. open_inputs; try by run_main.
  run_main. by destruct (exn_cls e).
Qed.

Lemma main_inputs_ok inp w out t rows :
  inputs_ok inp → out_dir inp = Return out →
  template_read inp = Return t → csv_loaded inp = Return rows →
  let run := render_rows (_inject_css_into_html t DEFAULT_CSS) out
               w 1 rows 0 [] in
  main inp w =
  (foldl open_file run.1.1 run.2, Exit (if (run.1.2 =? 0)%Z then 0 else 1)).
Proof.
  intros Hok Hout Ht Hrows. open_inputs. unfold main.
  repeat match goal with
         | H : _ inp = Return _ |- _ => rewrite H in *; clear H
         end.
  simplify_eq. cbn zeta.
  by destruct (render_rows _ _ _ _ _ _ _) as [[w1 failures] generated].
Qed.

(** Every run is of one of the three kinds. *)
Lemma inputs_cases inp :
  inputs_ok inp ∨ input_failure inp ∨ ∃ e, unhandled_input_failure inp e.
Proof.
  unfold inputs_ok, input_failure, unhandled_input_failure, records_loaded,
    template_loaded, template_checked, template_found, csv_found, resolved,
    selected.
  destruct (files_resolved inp) as [e|[]].
  { destruct (exn_cls e) eqn:Hcls; [right; left; left; by exists e|..];
      right; right; exists e; left; by rewrite Hcls. }
  destruct (out_dir inp) as [e|out]; [right; right; exists e; tauto|].
  destruct (csv_exists inp) as [e|[]];
    [right; right; exists e; eauto 10| |right; left; eauto 10].
  destruct (template_exists inp) as [e|[]];
    [right; right; exists e; eauto 10| |right; left; eauto 10].
  destruct (template_is_file inp) as [e|[]];
    [right; right; exists e; eauto 15| |right; left; eauto 15].
  destruct (template_read inp) as [e|t]; [right; left; eauto 20|].
  destruct (csv_loaded inp) as [e|rows]; [right; left; eauto 20|].
  destruct (out_dir_made inp) as [e|[]]; [right; left; eauto 20|].
  left. eauto 20.
Qed.
Lemma inputs_ok_values inp :
  inputs_ok inp →
  ∃ out t rows,
    out_dir inp = Return out ∧ template_read inp = Return t
    ∧ csv_loaded inp = Return rows.
Proof. intros H. open_inputs. eauto 10. Qed.

(** The exit code of a run with usable inputs, read off the attempts. *)
Lemma main_inputs_ok_code inp w out t rows :
  inputs_ok inp → out_dir inp = Return out →
  template_read inp = Return t → csv_loaded inp = Return rows →
  (main inp w).2
  = Exit (if decide (filter failed
                       (attempts (_inject_css_into_html t DEFAULT_CSS) out w 1 rows)
                     = [])
          then 0 else 1).
Proof.
  intros Hok Hout Ht Hrows.
  rewrite (main_inputs_ok inp w out t rows Hok Hout Ht Hrows). cbn [snd].
  destruct (render_rows_attempts (_inject_css_into_html t DEFAULT_CSS) out w 1
              rows 0 [])
    as [-> _].
  by destruct (filter failed _) as [|a l].
Qed.
End batch_facts.

(** * The claims *)

Section claims_resolver.
Implicit Types (row : gmap (list N) (list N)) (t now out : str).

Lemma is_placeholder_bare key :
  key ≠ [] → all_of is_word key → is_placeholder (lit "{{" ++ key ++ lit "}}") key.
Proof.
  intros Hne Hkey. exists [], []. split; [done|].
  split; [constructor|]. split; [done|]. split; [done|constructor].
Qed.

(** C1, as stated, fails on the reserved name and on the second pass:
    with the template [{{generated_at}}] and a record without that key
    the name is recorded by the substitution but the returned list is
    empty; with the template [{{x}}] and [x] holding the text
    [{{generated_at}}] the substitution puts the value in, but the
    returned text is the clock reading. *)
Lemma render_template_reserved_name_not_reported :
  Substituted ∅ generated_at_token [] [generated_at]
  ∧ (∅ : gmap (list N) (list N)) !! generated_at = None
  ∧ render_template t0 generated_at_token ∅
    = {| html := []; missing_placeholders := [] |}
  ∧ ¬ names_as_recorded t0 generated_at_token ∅
  ∧ Substituted {[lit "x" := generated_at_token]} (lit "{{x}}")
      generated_at_token []
  ∧ html (render_template t0 (lit "{{x}}") {[lit "x" := generated_at_token]}) = t0
  ∧ ¬ html_as_substituted t0 (lit "{{x}}") {[lit "x" := generated_at_token]}.
Proof.
  assert (Substituted ∅ generated_at_token [] [generated_at]) as Hga.
  { apply (Sub_missing ∅ generated_at_token generated_at [] [] []);
      [|done|constructor].
    apply (is_placeholder_bare generated_at); [done|]. by repeat constructor. }
  assert (Substituted {[lit "x" := generated_at_token]} (lit "{{x}}")
            generated_at_token []) as Hx.
  { apply (Sub_value _ (lit "{{x}}") (lit "x") generated_at_token [] [] []);
      [|done|constructor].
    apply (is_placeholder_bare (lit "x")); [done|]. by repeat constructor. }
  split; [done|]. split; [done|]. split; [by vm_compute|]. split.
  { intros (out & names & Hsub & Hnames).
    apply Substituted_first_pass in Hsub, Hga. rewrite Hga in Hsub.
    injection Hsub as <- <-.
    assert (generated_at ∈ missing_placeholders
              (render_template t0 generated_at_token ∅)) as Hin
      by (apply Hnames; by left).
    vm_compute in Hin. by apply elem_of_nil in Hin. }
  split; [done|]. split; [by vm_compute|].
  intros (out & names & Hsub & Hhtml).
  apply Substituted_first_pass in Hsub, Hx. rewrite Hx in Hsub.
  injection Hsub as <- <-. by vm_compute in Hhtml.
Qed.

(** C1 (amended). Every template can be read, in exactly one way, as the
    specification says: left to right, each placeholder token replaced
    by the value of its name in the record, or dropped with its name
    recorded when the name is not a key. The returned list of unresolved
    names is always free of duplicates and sorted. In every run, each
    returned name was recorded, and each recorded name other than the
    reserved name [generated_at] is returned; when the reserved name was
    not recorded the returned list is exactly the recorded names,
    deduplicated and sorted. Whenever the substituted text contains no
    literal [{{generated_at}}], [render_template] returns the
    substituted text. For the template [{{missing}}] and any record
    without that key the output is empty and the list is [["missing"]]. *)
Theorem render_template_substitutes :
  (∀ row t, ∃ out names,
     Substituted row t out names
     ∧ ∀ out' names', Substituted row t out' names' → out' = out ∧ names' = names)
  ∧ (∀ now row t,
       NoDup (missing_placeholders (render_template now t row))
       ∧ StronglySorted str_le (missing_placeholders (render_template now t row)))
  ∧ (∀ now row t out names,
       Substituted row t out names →
       (∀ n, n ∈ names → row !! n = None)
       ∧ (∀ n, n ∈ missing_placeholders (render_template now t row) → n ∈ names)
       ∧ (∀ n, n ∈ names → n ≠ generated_at →
            n ∈ missing_placeholders (render_template now t row))
       ∧ (generated_at ∉ names →
          missing_placeholders (render_template now t row) = sorted_set names)
       ∧ (contains generated_at_token out = false →
          html (render_template now t row) = out))
  ∧ (∀ now row,
       row !! lit "missing" = None →
       render_template now (lit "{{missing}}") row
       = {| html := []; missing_placeholders := [lit "missing"] |}).
Proof.
  split; [|split; [|split]].
  - intros row t. exists (first_pass row t).1, (first_pass row t).2.
    split; [apply first_pass_Substituted|].
    intros out' names' Hsub%Substituted_first_pass. by rewrite Hsub.
  - intros now row t. rewrite render_template_passes. simpl.
    split; [apply NoDup_sorted_set|apply sorted_sorted_set].
  - intros now row t out names Hsub.
    split; [by apply Substituted_names with t out|].
    split; [intros n; by apply render_template_missing_sub with out|].
    split; [intros n Hn Hne; by apply (elem_of_report_ne now t row out names)|].
    split; [by apply render_template_missing with out|].
    intros Hc.
    by rewrite (render_template_html _ _ _ _ _ Hsub), str_replace_absent.
  - intros now row Hrow.
    assert (Substituted row (lit "{{missing}}") [] [lit "missing"]) as Hsub.
    { apply (Sub_missing row (lit "{{missing}}") (lit "missing") [] [] []);
        [|done|constructor].
      apply (is_placeholder_bare (lit "missing")); [done|]. by repeat constructor. }
    apply Substituted_first_pass in Hsub.
    rewrite render_template_passes, Hsub. by vm_compute.
Qed.

Lemma render_template_substitutes_witness :
  let row : gmap (list N) (list N) := {[lit "name" := lit "Ann"]} in
  let r := render_template t0
             (lit "Dear {{ name }}, {{missing}}{{ id }} {{generated_at}}!") row in
  html r = lit "Dear Ann,  !"
  ∧ lit "id" ∈ missing_placeholders r
  ∧ lit "missing" ∈ missing_placeholders r
  ∧ missing_placeholders (render_template t0 (lit "{{ id }}{{x}}{{id}}") row)
    = [lit "id"; lit "x"]
  ∧ render_template t0 (lit "{{missing}}") row
    = {| html := []; missing_placeholders := [lit "missing"] |}.
Proof.
  intros row r. subst r.
  destruct render_template_substitutes as (_ & _ & Hsub & Hmissing).
  pose proof (first_pass_Substituted row
                (lit "Dear {{ name }}, {{missing}}{{ id }} {{generated_at}}!"))
    as Hread.
  destruct (Hsub t0 row _ _ _ Hread) as (_ & _ & Hin & _ & Hhtml).
  pose proof (first_pass_Substituted row (lit "{{ id }}{{x}}{{id}}")) as Hread2.
  destruct (Hsub t0 row _ _ _ Hread2) as (_ & _ & _ & Hnames & _).
  split; [by rewrite Hhtml; vm_compute|].
  split; [apply Hin; [apply (bool_decide_unpack _); by vm_compute|done]|].
  split; [apply Hin; [apply (bool_decide_unpack _); by vm_compute|done]|].
  split; [rewrite Hnames; [by vm_compute|]; apply (bool_decide_unpack _);
          by vm_compute|].
  apply Hmissing. by vm_compute.
Defined.
Lemma plain_no_placeholder c t : c ≠ 123 → ¬ placeholder_at (c :: t).
Proof.
  intros Hc (tok & key & rest & Heq & ws1 & ws2 & -> & _).
  by injection Heq as -> _.
Qed.

Lemma Substituted_plain row s t out names :
  plain s → Substituted row t out names →
  Substituted row (s ++ t) (s ++ out) names.
Proof.
  intros Hs Ht. induction Hs as [|c s Hc _ IH]; [done|]. simpl.
  apply Sub_char; [by apply plain_no_placeholder|done].
Qed.

Lemma plain_no_token s : plain s → contains generated_at_token s = false.
Proof.
  induction 1 as [|c s Hc _ IH]; [done|].
  change (contains generated_at_token (c :: s))
    with ((c =? 123) && startswith (lit "{generated_at}}") s
          || contains generated_at_token s).
  rewrite IH. by apply N.eqb_neq in Hc as ->.
Qed.

(** An opening brace that no name follows starts no placeholder. *)
Lemma brace_no_placeholder c t :
  is_word c = false → isspace c = false → ¬ placeholder_at (123 :: 123 :: c :: t).
Proof.
  intros Hw Hs (tok & key & rest & Heq & ws1 & ws2 & -> & Hws1 & Hne & Hkey & _).
  simpl in Heq. injection Heq as Heq.
  destruct ws1 as [|x ws1].
  - destruct key as [|x key]; [done|]. simpl in Heq. injection Heq as -> _.
    inversion Hkey; subst. congruence.
  - simpl in Heq. injection Heq as -> _. inversion Hws1; subst. congruence.
Qed.

(** C2: the code does not do what the claim says. In the first pass the
    callback treats [generated_at] like any name that is not a key: the
    token is replaced by the empty string, so the second pass finds no
    token to replace. Whatever the clock reads, the template of
    scenario A renders without a timestamp; so does every template with
    the token between two texts free of opening braces. Only one
    recorded occurrence of the name is removed: with two tokens the
    name is reported as unresolved. *)
Theorem render_template_timestamp_lost :
  (∀ now,
     render_template now (lit "Hello {{name}}, generated {{generated_at}}")
       {[lit "name" := lit "Ann"]}
     = {| html := lit "Hello Ann, generated "; missing_placeholders := [] |})
  ∧ (∀ now row pre post,
       plain pre → plain post → row !! generated_at = None →
       render_template now (pre ++ generated_at_token ++ post) row
       = {| html := pre ++ post; missing_placeholders := [] |})
  ∧ (∀ now,
       render_template now (lit "{{generated_at}} and {{generated_at}}") ∅
       = {| html := lit " and "; missing_placeholders := [generated_at] |}).
Proof.
  split; [by intros now; vm_compute|split; [|by intros now; vm_compute]].
  intros now row pre post Hpre Hpost Hrow.
  assert (Substituted row (pre ++ generated_at_token ++ post) (pre ++ post)
            [generated_at]) as Hsub.
  { apply Substituted_plain; [done|]. apply Sub_missing; [|done|].
    - apply (is_placeholder_bare generated_at); [done|]. by repeat constructor.
    - pose proof (Substituted_plain row post [] [] [] Hpost (Sub_end row)) as H.
      by rewrite !app_nil_r in H. }
  apply Substituted_first_pass in Hsub.
  rewrite render_template_passes, Hsub. cbn [fst snd].
  rewrite str_replace_absent by (apply plain_no_token, Forall_app; done).
  done.
Qed.

Lemma render_template_timestamp_lost_witness :
  render_template t0 (lit "<p>" ++ generated_at_token ++ lit "</p>") ∅
  = {| html := lit "<p></p>"; missing_placeholders := [] |}.
Proof.
  destruct render_template_timestamp_lost as (_ & Hlost & _).
  apply (Hlost t0 ∅ (lit "<p>") (lit "</p>")).
  - by repeat constructor.
  - by repeat constructor.
  - done.
Defined.

(** The second pass reaches into the values: the value
    [<{{generated_at}}>] of the field [x] is put in by the substitution,
    but the returned text holds the clock reading in place of the
    token. *)
Lemma render_template_rewrites_token_in_value :
  let row : gmap (list N) (list N) := {[lit "x" := lit "<{{generated_at}}>"]} in
  Substituted row (lit "{{x}}") (lit "<{{generated_at}}>") []
  ∧ html (render_template t0 (lit "{{x}}") row) = lit "<" ++ t0 ++ lit ">"
  ∧ ¬ html_as_substituted t0 (lit "{{x}}") row.
Proof.
  intros row.
  assert (Substituted row (lit "{{x}}") (lit "<{{generated_at}}>") []) as Hx.
  { apply (Sub_value _ (lit "{{x}}") (lit "x") (lit "<{{generated_at}}>") [] [] []);
      [|done|constructor].
    apply (is_placeholder_bare (lit "x")); [done|]. by repeat constructor. }
  split; [done|]. split; [by vm_compute|].
  intros (out & names & Hsub & Hhtml).
  apply Substituted_first_pass in Hsub, Hx. rewrite Hx in Hsub.
  injection Hsub as <- <-. by vm_compute in Hhtml.
Qed.

(** C3: the code does not do what the claim says for the reserved token.
    The substitution itself is not recursive: it puts the value of a
    placeholder in as it is and goes on with the template text after the
    token, so what a value contains is never matched against the record.
    But the second pass runs over the substituted text, not over the
    template: a literal [{{generated_at}}] that a value brought in is
    replaced by the clock reading. With the template [{{x}}] and the
    value [<{{generated_at}}>] the returned text is the clock reading
    between the two angle brackets, whatever the clock reads. The
    returned text is the substituted text, values as they are, only when
    that text contains no such literal. *)
Theorem render_template_values_literal :
  (∀ now,
     html (render_template now (lit "{{x}}") {[lit "x" := lit "<{{generated_at}}>"]})
     = lit "<" ++ now ++ lit ">")
  ∧ (∀ row tok key v rest,
       is_placeholder tok key → row !! key = Some v →
       first_pass row (tok ++ rest)
       = (v ++ (first_pass row rest).1, (first_pass row rest).2))
  ∧ (∀ now row t,
       html (render_template now t row)
       = str_replace generated_at_token now (first_pass row t).1)
  ∧ (∀ now row t,
       contains generated_at_token (first_pass row t).1 = false →
       html (render_template now t row) = (first_pass row t).1).
Proof.
  split; [|split; [|split]].
  - intros now. by vm_compute.
  - intros row tok key v rest Htok Hv.
    by rewrite (first_pass_token _ _ _ _ Htok), Hv.
  - intros now row t. by rewrite render_template_passes.
  - intros now row t Hc. rewrite render_template_passes. simpl.
    by apply str_replace_absent.
Qed.

Lemma render_template_values_literal_witness :
  let row : gmap (list N) (list N) :=
    {[lit "x" := lit "{{y}} {{ x }}"; lit "y" := lit "z"]} in
  (first_pass row (lit "{{x}}|{{y}}")).1 = lit "{{y}} {{ x }}|z"
  ∧ html (render_template t0 (lit "{{x}}|{{y}}") row) = lit "{{y}} {{ x }}|z".
Proof.
  intros row. destruct render_template_values_literal as (_ & Hvalue & _ & Hhtml).
  split.
  - change (lit "{{x}}|{{y}}") with (lit "{{x}}" ++ lit "|{{y}}").
    rewrite (Hvalue row (lit "{{x}}") (lit "x") (lit "{{y}} {{ x }}") (lit "|{{y}}")).
    + by vm_compute.
    + apply (is_placeholder_bare (lit "x")); [done|]. by repeat constructor.
    + by vm_compute.
  - rewrite (Hhtml t0 row (lit "{{x}}|{{y}}")); by vm_compute.
Defined.

(** C10, as stated, fails when the value completes the reserved token
    with braces of the template: the value [generated_at] holds no
    token, the template [{{{{generated_at}}}}] holds the placeholder
    between two pairs of braces, and the returned text is the clock
    reading, in which the value does not occur. *)
Lemma record_generated_at_overwritten_by_clock :
  let row : gmap (list N) (list N) := {[generated_at := generated_at]} in
  let t := lit "{{" ++ generated_at_token ++ lit "}}" in
  row !! generated_at = Some generated_at
  ∧ contains generated_at_token generated_at = false
  ∧ is_placeholder generated_at_token generated_at
  ∧ Substituted row t (lit "{{" ++ generated_at ++ lit "}}") []
  ∧ render_template t0 t row = {| html := t0; missing_placeholders := [] |}
  ∧ contains generated_at t0 = false
  ∧ ¬ html_as_substituted t0 t row.
Proof.
  intros row t.
  assert (is_placeholder generated_at_token generated_at) as Htok.
  { apply (is_placeholder_bare generated_at); [done|]. by repeat constructor. }
  assert (Substituted row t (lit "{{" ++ generated_at ++ lit "}}") []) as Ht.
  { apply Sub_char; [by apply brace_no_placeholder|].
    apply Sub_char; [by apply brace_no_placeholder|].
    apply (Sub_value row generated_at_token generated_at generated_at
             (lit "}}") (lit "}}") []); [done|done|].
    apply (Substituted_plain row (lit "}}") [] [] []); [|constructor].
    by repeat constructor. }
  split; [by vm_compute|]. split; [by vm_compute|]. split; [done|].
  split; [done|]. split; [by vm_compute|]. split; [by vm_compute|].
  intros (out & names & Hsub & Hhtml).
  apply Substituted_first_pass in Hsub, Ht. rewrite Ht in Hsub.
  injection Hsub as <- <-. by vm_compute in Hhtml.
Qed.

(** C10 (amended). If the record has a field [generated_at], the name is
    never reported as unresolved and the substitution replaces every
    [generated_at] placeholder by the value of the field; the returned
    text is the substituted text, with these values in it, provided the
    substituted text contains no literal [{{generated_at}}]. *)
Theorem record_generated_at_takes_precedence now row t v :
  row !! generated_at = Some v →
  (generated_at ∉ missing_placeholders (render_template now t row))
  ∧ (∀ tok rest,
       is_placeholder tok generated_at →
       first_pass row (tok ++ rest)
       = (v ++ (first_pass row rest).1, (first_pass row rest).2))
  ∧ (contains generated_at_token (first_pass row t).1 = false →
     html (render_template now t row) = (first_pass row t).1).
Proof.
  intros Hv. split; [|split].
  - intros Hin.
    apply (render_template_missing_sub _ _ _ _ _ _ (first_pass_Substituted row t))
      in Hin.
    apply (Substituted_names _ _ _ _ (first_pass_Substituted row t)) in Hin.
    congruence.
  - intros tok rest Htok. by rewrite (first_pass_token _ _ _ _ Htok), Hv.
  - intros Hc. rewrite render_template_passes. simpl. by apply str_replace_absent.
Qed.

Lemma record_generated_at_takes_precedence_witness :
  let row : gmap (list N) (list N) := {[generated_at := lit "yesterday"]} in
  let r := render_template t0 (lit "at {{generated_at}}, {{ generated_at }}") row in
  (generated_at ∉ missing_placeholders r) ∧ html r = lit "at yesterday, yesterday".
Proof.
  intros row r. subst r.
  destruct (record_generated_at_takes_precedence t0 row
              (lit "at {{generated_at}}, {{ generated_at }}") (lit "yesterday"))
    as (Hmiss & _ & Hhtml).
  - by vm_compute.
  - split; [done|]. rewrite Hhtml; by vm_compute.
Defined.
End claims_resolver.

Section claims_style.
Implicit Types (html css pre m post : str).

Lemma inject_css_at_close_head html css pre m post :
  first_occurrence is_close_head html pre m post →
  _inject_css_into_html html css = pre ++ style_block css ++ m ++ post.
Proof.
  intros Hfirst.
  destruct (first_occurrence_search CLOSE_HEAD_RE is_close_head close_head_match
              match_close_head _ _ _ _ Hfirst) as (gs & Hs & Hcat).
  destruct Hfirst as (-> & _). unfold _inject_css_into_html. rewrite Hs.
  unfold m_start. cbn [fst snd]. by rewrite take_app_length, drop_app_length.
Qed.

Lemma inject_css_at_open_html html css pre m post :
  ¬ occurs is_close_head html →
  first_occurrence is_open_html html pre m post →
  _inject_css_into_html html css
  = pre ++ m ++ (nl ++ lit "<head>" ++ nl) ++ style_block css
      ++ (lit "</head>" ++ nl) ++ post.
Proof.
  intros Hno Hfirst.
  apply (search_None_occurs CLOSE_HEAD_RE is_close_head close_head_match
           match_close_head) in Hno.
  destruct (first_occurrence_search OPEN_HTML_RE is_open_html open_html_match
              match_open_html _ _ _ _ Hfirst) as (gs & Hs & Hcat).
  destruct Hfirst as (-> & _). unfold _inject_css_into_html. rewrite Hno, Hs.
  unfold m_end. cbn [fst snd]. rewrite Hcat, <-length_app, (assoc_L (++) pre m).
  by rewrite take_app_length, drop_app_length, <-!(assoc_L (++)).
Qed.

Lemma inject_css_fallback html css :
  ¬ occurs is_close_head html → ¬ occurs is_open_html html →
  _inject_css_into_html html css = style_block css ++ html.
Proof.
  intros Hno1 Hno2.
  apply (search_None_occurs CLOSE_HEAD_RE is_close_head close_head_match
           match_close_head) in Hno1.
  apply (search_None_occurs OPEN_HTML_RE is_open_html open_html_match
           match_open_html) in Hno2.
  unfold _inject_css_into_html. by rewrite Hno1, Hno2.
Qed.

(** C5. The style composer follows the priority order of the
    specification. The stylesheet block is the stylesheet between an
    opening and a closing style tag, each followed by a line feed, and
    a line feed after the stylesheet. With a closing head marker in the
    document the block goes right before the first one; otherwise, with
    an opening root marker, a head section holding the block goes right
    after the first one; otherwise the block goes in front of the
    unchanged document. One of the three cases always applies, and in
    each the result contains the block and so the stylesheet itself. *)
Theorem inject_css_priority html css :
  let block := lit "<style>" ++ nl ++ css ++ nl ++ lit "</style>" ++ nl in
  (∀ pre m post,
     first_occurrence is_close_head html pre m post →
     _inject_css_into_html html css = pre ++ block ++ m ++ post)
  ∧ (¬ occurs is_close_head html →
     ∀ pre m post,
       first_occurrence is_open_html html pre m post →
       _inject_css_into_html html css
       = pre ++ m ++ (nl ++ lit "<head>" ++ nl) ++ block
           ++ (lit "</head>" ++ nl) ++ post)
  ∧ (¬ occurs is_close_head html → ¬ occurs is_open_html html →
     _inject_css_into_html html css = block ++ html)
  ∧ ((∃ pre m post, first_occurrence is_close_head html pre m post)
     ∨ (¬ occurs is_close_head html
        ∧ ∃ pre m post, first_occurrence is_open_html html pre m post)
     ∨ (¬ occurs is_close_head html ∧ ¬ occurs is_open_html html))
  ∧ (∃ pre post, _inject_css_into_html html css = pre ++ block ++ post)
  ∧ (∃ pre post, _inject_css_into_html html css = pre ++ css ++ post)
  ∧ contains css (_inject_css_into_html html css) = true.
Proof.
  intros block.
  assert (block = style_block css) as -> by done.
  assert (∃ pre post, _inject_css_into_html html css = pre ++ css ++ post)
    as Hcss.
  { destruct (inject_css_shape html css) as (pre & post & l & r & _ & -> & _).
    exists (pre ++ l ++ lit "<style>" ++ nl), (nl ++ lit "</style>" ++ nl ++ r ++ post).
    unfold style_block. by rewrite <-!(assoc_L (++)). }
  split; [by apply inject_css_at_close_head|].
  split; [intros Hno pre m post Hfirst; by apply inject_css_at_open_html|].
  split; [by apply inject_css_fallback|]. split; [|split; [|split; [done|]]].
  - destruct (Re.search CLOSE_HEAD_RE html) as [[[pre gs] rest]|] eqn:Hclose.
    { left. exists pre, (concat gs), rest.
      by apply (search_first_occurrence CLOSE_HEAD_RE is_close_head
                  close_head_match match_close_head). }
    apply (search_None_occurs CLOSE_HEAD_RE is_close_head close_head_match
             match_close_head) in Hclose.
    right. destruct (Re.search OPEN_HTML_RE html) as [[[pre gs] rest]|] eqn:Hopen.
    { left. split; [done|]. exists pre, (concat gs), rest.
      by apply (search_first_occurrence OPEN_HTML_RE is_open_html
                  open_html_match match_open_html). }
    apply (search_None_occurs OPEN_HTML_RE is_open_html open_html_match
             match_open_html) in Hopen.
    by right.
  - destruct (inject_css_shape html css) as (pre & post & l & r & _ & -> & _).
    exists (pre ++ l), (r ++ post). by rewrite <-!(assoc_L (++)).
  - apply contains_spec, Hcss.
Qed.

Lemma inject_css_priority_witness :
  _inject_css_into_html (lit "<html><head><title>t</title></HEAD ></html>") (lit "p{}")
  = lit "<html><head><title>t</title>"
      ++ (lit "<style>" ++ nl ++ lit "p{}" ++ nl ++ lit "</style>" ++ nl)
      ++ lit "</HEAD >" ++ lit "</html>"
  ∧ _inject_css_into_html (lit "<!doctype html><HTML lang=en><body>x") (lit "p{}")
    = lit "<!doctype html>" ++ lit "<HTML lang=en>" ++ (nl ++ lit "<head>" ++ nl)
        ++ (lit "<style>" ++ nl ++ lit "p{}" ++ nl ++ lit "</style>" ++ nl)
        ++ (lit "</head>" ++ nl) ++ lit "<body>x"
  ∧ _inject_css_into_html (lit "<p>x</p>") (lit "p{}")
    = (lit "<style>" ++ nl ++ lit "p{}" ++ nl ++ lit "</style>" ++ nl)
        ++ lit "<p>x</p>".
Proof.
  split; [|split].
  - apply (proj1 (inject_css_priority
                    (lit "<html><head><title>t</title></HEAD ></html>") (lit "p{}"))).
    apply (search_first_occurrence CLOSE_HEAD_RE is_close_head close_head_match
             match_close_head _ _
             [lit "<"; lit "/"; lit "H"; lit "E"; lit "A"; lit "D"; lit " "; lit ">"]).
    by vm_compute.
  - apply (proj1 (proj2 (inject_css_priority
                    (lit "<!doctype html><HTML lang=en><body>x") (lit "p{}")))).
    + apply (search_None_occurs CLOSE_HEAD_RE is_close_head close_head_match
               match_close_head). by vm_compute.
    + apply (search_first_occurrence OPEN_HTML_RE is_open_html open_html_match
               match_open_html _ _
               [lit "<"; lit "H"; lit "T"; lit "M"; lit "L"; lit " lang=en"; lit ">"]).
      by vm_compute.
  - apply (proj1 (proj2 (proj2 (inject_css_priority (lit "<p>x</p>") (lit "p{}"))))).
    + apply (search_None_occurs CLOSE_HEAD_RE is_close_head close_head_match
               match_close_head). by vm_compute.
    + apply (search_None_occurs OPEN_HTML_RE is_open_html open_html_match
               match_open_html). by vm_compute.
Defined.

(** C6, as stated, fails: the composer never looks for a block that is
    already there. Applied to the empty document it gives the block;
    applied again it gives the block twice. *)
Lemma inject_css_twice_duplicates :
  _inject_css_into_html [] (lit "p{}") = style_block (lit "p{}")
  ∧ _inject_css_into_html (_inject_css_into_html [] (lit "p{}")) (lit "p{}")
    = style_block (lit "p{}") ++ style_block (lit "p{}")
  ∧ _inject_css_into_html (_inject_css_into_html [] (lit "p{}")) (lit "p{}")
    ≠ _inject_css_into_html [] (lit "p{}").
Proof. split; [by vm_compute|]. split; by vm_compute. Qed.

(** C6 (amended). The style composer is not idempotent: every
    application puts one more copy of the stylesheet block into the
    document it is given and keeps the rest, so the document styled
    twice is the document styled once with a second block in it, and is
    never equal to it. *)
Theorem inject_css_adds_a_block html css :
  let once := _inject_css_into_html html css in
  let twice := _inject_css_into_html once css in
  (∃ pre post l r,
     once = pre ++ post
     ∧ twice = pre ++ l ++ style_block css ++ r ++ post
     ∧ (length l + length r ≤ 16)%nat)
  ∧ (length once + length (style_block css) ≤ length twice)%nat
  ∧ twice ≠ once.
Proof.
  intros once twice.
  destruct (inject_css_shape once css) as (pre & post & l & r & Honce & Htwice & Hlr).
  fold twice in Htwice.
  assert (length twice = length once + length l + length (style_block css)
                         + length r)%nat as Hlen.
  { rewrite Htwice, Honce, !length_app. lia. }
  assert (0 < length (style_block css))%nat as Hpos.
  { unfold style_block. rewrite !length_app. simpl. lia. }
  split; [by exists pre, post, l, r|]. split; [lia|].
  intros Heq. rewrite Heq in Hlen. lia.
Qed.
End claims_style.

Section claims_namer.
Implicit Types (name s : str) (row : gmap (list N) (list N)).

Lemma decimal_value_acc d acc :
  fold_left (λ a c, 10 * a + (c - 48)) (uint_digits d) (N.pos acc)
  = N.pos (Pos.of_uint_acc d acc).
Proof.
  revert acc. induction d; intros acc; simpl; [done|..];
    rewrite <-IHd; f_equal; lia.
Qed.

Lemma decimal_value_uint d : decimal_value (uint_digits d) = N.of_uint d.
Proof.
  unfold decimal_value, N.of_uint.
  induction d; simpl; [done|done|..]; by rewrite <-decimal_value_acc.
Qed.

Lemma decimal_value_zeros k s :
  decimal_value (replicate k 48 ++ s) = decimal_value s.
Proof. unfold decimal_value. induction k as [|k IH]; simpl; done. Qed.

Lemma uint_digits_digits d : all_of is_digit (uint_digits d).
Proof. induction d; simpl; by constructor. Qed.

(** For an index that is not negative the formatted text has at least
    four characters, all of them digits, and reads as the index. *)
Lemma format_04d_value index :
  (0 ≤ index)%Z →
  Z.of_N (decimal_value (format_04d index)) = index
  ∧ (4 ≤ length (format_04d index))%nat
  ∧ all_of is_digit (format_04d index).
Proof.
  intros Hidx. unfold format_04d. rewrite (proj2 (Z.ltb_ge _ _)) by done.
  unfold zfill. rewrite decimal_value_zeros, decimal_value_uint.
  rewrite DecimalN.Unsigned.of_to. split; [lia|]. split.
  - rewrite length_app, length_replicate. lia.
  - apply Forall_app. split; [|apply uint_digits_digits].
    by apply Forall_replicate.
Qed.

(** Up to 9999 the width is exactly four. *)
Lemma format_04d_width index :
  (0 ≤ index < 10000)%Z → length (format_04d index) = 4%nat.
Proof.
  intros Hidx.
  assert (forallb (λ n, length (format_04d (Z.of_nat n)) =? 4)%nat
            (seq 0 (Z.to_nat 10000)) = true) as Hall by (by vm_compute).
  rewrite forallb_forall in Hall.
  specialize (Hall (Z.to_nat index)). rewrite Z2Nat.id in Hall by lia.
  apply Nat.eqb_eq, Hall, in_seq. lia.
Qed.

(** C7, as stated, fails where reserved characters follow one another:
    the pattern of the source takes a whole run of them at once and
    puts one underscore for it. *)
Lemma sanitize_filename_one_underscore_per_run :
  _sanitize_filename (lit "a//b") = lit "a_b"
  ∧ sanitize_as_specified (lit "a//b") = lit "a__b"
  ∧ _sanitize_filename (lit "a//b") ≠ sanitize_as_specified (lit "a//b").
Proof. split; [by vm_compute|]. split; by vm_compute. Qed.

(** C7 (amended). Filename sanitization trims surrounding whitespace,
    replaces every maximal run of reserved characters by one underscore,
    strips trailing dots and spaces and then surrounding whitespace once
    more, and gives the default name when nothing is left, or when
    nothing was left after the first trimming. The result is never empty
    and contains no reserved character; [a/b:c] becomes [a_b_c]. *)
Theorem sanitize_filename_spec name :
  _sanitize_filename name
  = or_default (strip (rstrip_chars dot_or_space (squeeze_reserved (strip name))))
  ∧ Forall (λ c, c ∉ reserved_chars) (_sanitize_filename name)
  ∧ _sanitize_filename name ≠ []
  ∧ _sanitize_filename (lit "a/b:c") = lit "a_b_c".
Proof.
  split; [apply sanitize_filename_pipeline|]. split; [|split; [|by vm_compute]].
  - rewrite sanitize_filename_pipeline.
    eapply Forall_impl;
      [apply or_default_clean, Forall_strip, Forall_rstrip_chars, squeeze_from_clean|].
    intros c Hc. unfold is_reserved in Hc. by apply bool_decide_eq_false in Hc.
  - rewrite sanitize_filename_pipeline. unfold or_default.
    by case_bool_decide.
Qed.

(** C8, as stated, fails for a value of whitespace only: it is not
    empty, but the source trims a value before it looks whether it is
    empty, and goes on to the next field. *)
Lemma choose_output_filename_skips_blank :
  let row : gmap (list N) (list N) :=
    {[lit "filename" := lit " "; lit "name" := lit "x"]} in
  row !! lit "filename" = Some (lit " ")
  ∧ _choose_output_filename row 1 = lit "x"
  ∧ choose_as_specified row 1 name_keys = lit "document"
  ∧ _choose_output_filename row 1 ≠ choose_as_specified row 1 name_keys.
Proof. intros row. split; [by vm_compute|]. split; [by vm_compute|]. split; by vm_compute. Qed.

(** C8 (amended). The output namer goes through the fields [filename],
    [file_name], [doc_name], [document_name], [id], [name] in this
    order and returns the sanitized value of the first one whose value,
    trimmed of surrounding whitespace, is not empty. If there is none it
    returns [document_] followed by the index, zero-padded to at least
    four digits: exactly four up to 9999, [document_0003] for index 3. *)
Theorem choose_output_filename_spec row index :
  name_keys = [lit "filename"; lit "file_name"; lit "doc_name";
               lit "document_name"; lit "id"; lit "name"]
  ∧ (∀ pre key post v,
       name_keys = pre ++ key :: post →
       (∀ k, k ∈ pre → strip (default [] (row !! k)) = []) →
       row !! key = Some v → strip v ≠ [] →
       _choose_output_filename row index = _sanitize_filename (strip v))
  ∧ ((∀ k, k ∈ name_keys → strip (default [] (row !! k)) = []) →
     _choose_output_filename row index = lit "document_" ++ format_04d index)
  ∧ ((0 ≤ index)%Z →
     Z.of_N (decimal_value (format_04d index)) = index
     ∧ (4 ≤ length (format_04d index))%nat
     ∧ all_of is_digit (format_04d index))
  ∧ ((0 ≤ index < 10000)%Z → length (format_04d index) = 4%nat)
  ∧ lit "document_" ++ format_04d 3 = lit "document_0003".
Proof.
  split; [done|]. split; [|split; [|split; [|split; [|by vm_compute]]]].
  - intros pre key post v Hkeys Hblank Hv Hne.
    unfold _choose_output_filename. rewrite Hkeys, choose_from_blank by done.
    simpl. rewrite Hv. simpl. by rewrite bool_decide_false.
  - intros Hblank. unfold _choose_output_filename.
    rewrite <-(app_nil_r name_keys). by rewrite choose_from_blank.
  - apply format_04d_value.
  - apply format_04d_width.
Qed.

Lemma choose_output_filename_spec_witness :
  let row : gmap (list N) (list N) :=
    {[lit "filename" := lit "  "; lit "id" := lit " a/b:c "; lit "name" := lit "n"]} in
  _choose_output_filename row 7 = lit "a_b_c"
  ∧ _choose_output_filename ∅ 7 = lit "document_0007"
  ∧ Z.of_N (decimal_value (format_04d 7)) = 7%Z
  ∧ length (format_04d 7) = 4%nat.
Proof.
  intros row.
  destruct (choose_output_filename_spec row 7) as (_ & Hfirst & _ & Hvalue & Hwidth & _).
  destruct (choose_output_filename_spec ∅ 7) as (_ & _ & Hnone & _).
  split; [|split; [|split]].
  - rewrite (Hfirst [lit "filename"; lit "file_name"; lit "doc_name"; lit "document_name"]
               (lit "id") [lit "name"] (lit " a/b:c ")).
    + by vm_compute.
    + done.
    + intros k Hk. apply (bool_decide_unpack _).
      revert k Hk. apply Forall_forall. by repeat constructor.
    + by vm_compute.
    + by vm_compute.
  - rewrite Hnone; [by vm_compute|].
    intros k _. by rewrite lookup_empty.
  - by destruct Hvalue as [-> _]; [lia|].
  - apply Hwidth. lia.
Defined.
End claims_namer.

Section claims_batch.
Context {World : Type}.
Variable backend : World → str → Path → World * backend_outcome.
Variable clock : World → str.
Variable open_file : World → Path → World.
Implicit Types (w : World) (rows : list (gmap (list N) (list N))).

(** C4. The loop attempts every record, in input order, each in the
    world its predecessor left, whether that one failed or not. The
    produced paths are the paths of the records whose render call
    succeeded, in input order; the failure count is the number of the
    others; together they account for every record. *)
Theorem batch_isolation tpl out w rows :
  let run := render_rows backend clock tpl out w 1 rows 0 [] in
  let att := attempts backend clock tpl out w 1 rows in
  (∀ w1 w2 idx row rest failures generated e,
     html_to_pdf backend w1 (html (render_template (clock w1) tpl row))
       (out_path out idx row) = (w2, Raise e) →
     render_rows backend clock tpl out w1 idx (row :: rest) failures generated
     = render_rows backend clock tpl out w2 (idx + 1) rest (failures + 1) generated)
  ∧ length att = length rows
  ∧ att.*1 = out_paths out 1 rows
  ∧ run.2 = (filter succeeded att).*1
  ∧ run.1.2 = Z.of_nat (length (filter failed att))
  ∧ (Z.of_nat (length run.2) + run.1.2 = Z.of_nat (length rows))%Z
  ∧ run.2 `sublist_of` out_paths out 1 rows
  ∧ (∀ i p, att !! i = Some (p, true) → p ∈ run.2).
Proof.
  intros run att.
  destruct (render_rows_attempts backend clock tpl out w 1 rows 0 []) as [Hf Hg].
  fold run in Hf, Hg. fold att in Hf, Hg. simpl in Hg.
  split.
  { intros w1 w2 idx row rest failures generated e Hraise.
    by rewrite render_rows_cons, Hraise. }
  split; [apply length_attempts|]. split; [apply attempts_paths|].
  split; [done|]. split; [by rewrite Hf|]. split; [|split].
  - rewrite Hf, Hg, length_fmap.
    rewrite <-(length_attempts backend clock tpl out w 1 rows).
    fold att. rewrite <-(length_filter_split att). lia.
  - rewrite Hg, <-(attempts_paths backend clock tpl out w 1 rows).
    apply fmap_sublist, sublist_filter.
  - intros i p Hi. rewrite Hg.
    apply (list_elem_of_fmap_2' fst _ (p, true)); [|done].
    apply list_elem_of_filter. split; [done|].
    by apply list_elem_of_lookup_2 with i.
Qed.

(** C9: the code does not do what the claim says for the fatal input
    failures that stand outside every handler of [main]. A fatal input
    failure that the program reports ends the run with code 2 before any
    record is processed, in the world the run started in; a run whose
    inputs are
    usable goes through the batch and ends with code 0 when no render
    call failed and with code 1 otherwise. But when the path of the
    output directory cannot be resolved, or a check of an input path
    raises, or the selection raises something else than a missing
    file, the exception leaves [main]: the process ends with status 1,
    the status of a run that completed with record failures, and not
    with the distinct status 2. Every run is of one of these three
    kinds, and each of the outcomes arises in no other way. *)
Theorem main_exit_code inp w :
  (input_failure inp → main backend clock open_file inp w = (w, Exit 2))
  ∧ (∀ e, unhandled_input_failure inp e →
       main backend clock open_file inp w = (w, Uncaught e)
       ∧ exit_status (main backend clock open_file inp w).2 = 1%Z
       ∧ exit_status (main backend clock open_file inp w).2 ≠ 2%Z)
  ∧ (∀ out t rows,
       inputs_ok inp → out_dir inp = Return out →
       template_read inp = Return t → csv_loaded inp = Return rows →
       (main backend clock open_file inp w).2
       = Exit (if decide (filter failed
                            (attempts backend clock
                               (_inject_css_into_html t DEFAULT_CSS)
                               out w 1 rows) = [])
               then 0 else 1))
  ∧ (inputs_ok inp ∨ input_failure inp ∨ ∃ e, unhandled_input_failure inp e)
  ∧ ((main backend clock open_file inp w).2 = Exit 0 →
     inputs_ok inp
     ∧ ∀ out t rows,
         out_dir inp = Return out →
         template_read inp = Return t → csv_loaded inp = Return rows →
         filter failed
           (attempts backend clock (_inject_css_into_html t DEFAULT_CSS)
              out w 1 rows) = [])
  ∧ ((main backend clock open_file inp w).2 = Exit 1 → inputs_ok inp)
  ∧ ((main backend clock open_file inp w).2 = Exit 2 → input_failure inp)
  ∧ (∀ e, (main backend clock open_file inp w).2 = Uncaught e →
          unhandled_input_failure inp e)
  ∧ (exit_status (main backend clock open_file inp w).2 = 2%Z ↔ input_failure inp)
  ∧ (exit_status (main backend clock open_file inp w).2 = 1%Z →
     inputs_ok inp ∨ ∃ e, unhandled_input_failure inp e).
Proof.
  pose proof (main_input_failure backend clock open_file inp w) as Hfail.
  pose proof (main_unhandled_input_failure backend clock open_file inp w) as Hun.
  pose proof (main_inputs_ok_code backend clock open_file inp w) as Hrun.
  split; [done|]. split.
  { intros e He. rewrite (Hun e He). by cbn. }
  split; [done|]. split; [apply inputs_cases|].
  destruct (inputs_cases inp) as [Hok|[Hf|[e He]]].
  - destruct (inputs_ok_values inp Hok) as (out & t & rows & Hout & Ht & Hrows).
    pose proof (Hrun out t rows Hok Hout Ht Hrows) as Hcode.
    split.
    { intros H0. split; [done|]. intros out' t' rows' Hout' Ht' Hrows'.
      rewrite (Hrun out' t' rows' Hok Hout' Ht' Hrows') in H0.
      by case_decide. }
    split; [done|]. rewrite Hcode.
    split; [by case_decide|]. split; [done|].
    split; [|by left]. split; [by case_decide|].
    intros Hf. rewrite (Hfail Hf) in Hcode. cbn [snd] in Hcode. by case_decide.
  - rewrite (Hfail Hf). cbn [snd exit_status].
    split; [done|]. split; [done|]. split; [done|]. split; [done|]. done.
  - rewrite (Hun e He). cbn [snd exit_status].
    split; [done|]. split; [done|]. split; [done|].
    split; [by intros e' [= <-]|]. split; [|right; by exists e].
    split; [done|]. intros Hf. pose proof (Hun e He) as Hout.
    by rewrite (Hfail Hf) in Hout.
Qed.
End claims_batch.

(** Scenario E: of three records the second fails to render. *)
Lemma batch_isolation_witness :
  let run := render_rows (failing_at 1) (λ _, t0) (lit "<p>{{name}}</p>")
               (lit "/out") 0%nat 1 example_rows 0 [] in
  run.2 = [path_join (lit "/out") (lit "Ann.pdf");
           path_join (lit "/out") (lit "7_c.pdf")]
  ∧ run.1.2 = 1%Z
  ∧ (Z.of_nat (length run.2) + run.1.2 = 3)%Z
  ∧ path_join (lit "/out") (lit "7_c.pdf") ∈ run.2
  ∧ render_rows (failing_at 1) (λ _, t0) (lit "<p>{{name}}</p>") (lit "/out")
      1%nat 2 (drop 1 example_rows) 0 []
    = render_rows (failing_at 1) (λ _, t0) (lit "<p>{{name}}</p>") (lit "/out")
        2%nat 3 (drop 2 example_rows) 1 [].
Proof.
  intros run.
  destruct (batch_isolation (failing_at 1) (λ _, t0) (lit "<p>{{name}}</p>")
              (lit "/out") 0%nat example_rows)
    as (Hstep & _ & _ & Hgen & Hfail & Hsum & _ & Hlater).
  fold run in Hgen, Hfail, Hsum, Hlater.
  split; [by rewrite Hgen; vm_compute|]. split; [by rewrite Hfail; vm_compute|].
  split; [exact Hsum|]. split; [apply (Hlater 2%nat); by vm_compute|].
  apply (Hstep 1%nat 2%nat 2%Z _ _ 0%Z []
           (generation_failed (path_join (lit "/out") (lit "Bob.pdf"))
              [Words (lit "xhtml2pdf reported 2 error(s) while creating PDF.")])).
  by vm_compute.
Defined.

Lemma main_exit_code_witness :
  main (failing_at 1) (λ _, t0) (λ w _, w) undecodable_inputs 0%nat = (0%nat, Exit 2)
  ∧ (main (failing_at 1) (λ _, t0) (λ w _, w) example_inputs 0%nat).2 = Exit 1
  ∧ (main (failing_at 5) (λ _, t0) (λ w _, w) example_inputs 0%nat).2 = Exit 0
  ∧ (main (failing_at 5) (λ _, t0) (λ w _, w) homeless_inputs 0%nat).2
    = Uncaught (Exn RuntimeError [Words (lit "Could not determine home directory.")])
  ∧ exit_status (main (failing_at 5) (λ _, t0) (λ w _, w) homeless_inputs 0%nat).2
    = exit_status (main (failing_at 1) (λ _, t0) (λ w _, w) example_inputs 0%nat).2.
Proof.
  assert (inputs_ok example_inputs) as Hok.
  { unfold inputs_ok, records_loaded, template_loaded, template_checked,
      template_found, csv_found, resolved, selected. simpl. eauto 20. }
  assert (unhandled_input_failure homeless_inputs
            (Exn RuntimeError [Words (lit "Could not determine home directory.")]))
    as Hhome by (right; left; done).
  assert ((main (failing_at 1) (λ _, t0) (λ w _, w) example_inputs 0%nat).2 = Exit 1)
    as Hone.
  { rewrite (proj1 (proj2 (proj2 (main_exit_code (failing_at 1) (λ _, t0) (λ w _, w)
                             example_inputs 0%nat))) _ _ _ Hok eq_refl eq_refl eq_refl).
    by vm_compute. }
  split; [|split; [done|split; [|split]]].
  - apply (proj1 (main_exit_code (failing_at 1) (λ _, t0) (λ w _, w)
                    undecodable_inputs 0%nat)).
    do 4 right. left. split; [|by eexists].
    unfold template_checked, template_found, csv_found, resolved, selected.
    simpl. eauto 10.
  - rewrite (proj1 (proj2 (proj2 (main_exit_code (failing_at 5) (λ _, t0) (λ w _, w)
                             example_inputs 0%nat))) _ _ _ Hok eq_refl eq_refl eq_refl).
    by vm_compute.
  - destruct (proj1 (proj2 (main_exit_code (failing_at 5) (λ _, t0) (λ w _, w)
                              homeless_inputs 0%nat)) _ Hhome) as (-> & _). done.
  - destruct (proj1 (proj2 (main_exit_code (failing_at 5) (λ _, t0) (λ w _, w)
                              homeless_inputs 0%nat)) _ Hhome) as (_ & -> & _).
    by rewrite Hone.
Defined.

(** * Further properties of the resolver *)

Section resolver_more.
Implicit Types (row : gmap (list N) (list N)) (t now out a b : str).

Lemma contains_cons_false old c s :
  contains old (c :: s) = false →
  startswith old (c :: s) = false ∧ contains old s = false.
Proof.
  change (contains old (c :: s))
    with (startswith old (c :: s) || contains old s).
  by intros [? ?]%orb_false_iff.
Qed.

Lemma is_placeholder_head tok key :
  is_placeholder tok key →
  ∃ body, tok = 123 :: 123 :: body ∧ body ≠ [] ∧ Forall (λ c, c ≠ 123) body.
Proof.
  intros (ws1 & ws2 & -> & Hws1 & Hne & Hkey & Hws2).
  exists (ws1 ++ key ++ ws2 ++ lit "}}"). split; [done|]. split.
  { destruct ws1; [|done]. by destruct key. }
  rewrite !Forall_app. split; [|split; [|split]].
  - eapply Forall_impl; [exact Hws1|]. by intros c Hc ->.
  - eapply Forall_impl; [exact Hkey|]. by intros c Hc ->.
  - eapply Forall_impl; [exact Hws2|]. by intros c Hc ->.
  - by repeat constructor.
Qed.

Lemma is_placeholder_chars tok key :
  is_placeholder tok key → all_of token_char tok.
Proof.
  intros (ws1 & ws2 & -> & Hws1 & Hne & Hkey & Hws2).
  unfold all_of. rewrite !Forall_app. split; [by repeat constructor|].
  split; [|split; [|split]].
  - eapply Forall_impl; [exact Hws1|]. intros c Hc. unfold token_char.
    by rewrite Hc, !orb_true_r.
  - eapply Forall_impl; [exact Hkey|]. intros c Hc. unfold token_char.
    by rewrite Hc, !orb_true_r.
  - eapply Forall_impl; [exact Hws2|]. intros c Hc. unfold token_char.
    by rewrite Hc, !orb_true_r.
  - by repeat constructor.
Qed.

(** Without two opening braces in a row there is no placeholder. *)
Lemma no_double_brace_no_placeholder s :
  startswith double_brace s = false → ¬ placeholder_at s.
Proof.
  intros Hs (tok & key & rest & -> & (body & -> & _)%is_placeholder_head).
  by vm_compute in Hs.
Qed.

Lemma Substituted_no_double_brace row s :
  contains double_brace s = false → Substituted row s s [].
Proof.
  induction s as [|c s IH]; [constructor|].
  intros [Hs Hc]%contains_cons_false.
  apply Sub_char; [by apply no_double_brace_no_placeholder|by apply IH].
Qed.

Lemma contains_token_double_brace s :
  contains double_brace s = false → contains generated_at_token s = false.
Proof.
  induction s as [|c s IH]; [done|].
  intros [Hs Hc]%contains_cons_false.
  change (contains generated_at_token (c :: s))
    with (startswith generated_at_token (c :: s) || contains generated_at_token s).
  rewrite (IH Hc), orb_false_r.
  destruct (startswith generated_at_token (c :: s)) eqn:Htok; [|done].
  apply startswith_spec in Htok as [post Heq].
  assert (startswith double_brace (c :: s) = true) as Hdb; [|congruence].
  apply startswith_spec. exists (lit "generated_at}}" ++ post). by rewrite Heq.
Qed.

(** Names recorded by the substitution are names, and not keys. *)
Lemma Substituted_is_name row t out names :
  Substituted row t out names → ∀ n, n ∈ names → is_name n.
Proof.
  induction 1 as [| | |tok key t out names Htok _ _ IH]; try done.
  - by intros n ?%elem_of_nil.
  - intros n [->|?]%elem_of_cons; [|by apply IH].
    destruct Htok as (ws1 & ws2 & _ & _ & ? & ? & _). by split.
Qed.

(** A further key in the record takes its name out of the recorded
    names and leaves the other names as they are. *)
Lemma Substituted_insert row k v t out names :
  Substituted row t out names →
  ∃ out', Substituted (<[k:=v]> row) t out' (filter (λ n, n ≠ k) names).
Proof.
  induction 1 as [|c t out names Hno _ [out' IH]
                  |tok key v' t out names Htok Hv _ [out' IH]
                  |tok key t out names Htok Hv _ [out' IH]].
  - exists []. constructor.
  - exists (c :: out'). by constructor.
  - destruct (decide (key = k)) as [->|Hne].
    + exists (v ++ out'). apply (Sub_value _ tok k v); [done| |done].
      by rewrite lookup_insert_eq.
    + exists (v' ++ out'). apply (Sub_value _ tok key v'); [done| |done].
      by rewrite lookup_insert_ne.
  - destruct (decide (key = k)) as [->|Hne].
    + exists (v ++ out'). rewrite filter_cons_False by (by intros ?).
      apply (Sub_value _ tok k v); [done| |done]. by rewrite lookup_insert_eq.
    + exists out'. rewrite filter_cons_True by done.
      apply Sub_missing; [done| |done]. by rewrite lookup_insert_ne.
Qed.

(** The report of [render_template] in terms of the recorded names. *)

Lemma list_remove_first_filter (P : str → Prop) `{∀ x, Decision (P x)} x l :
  P x → list_remove_first x (filter P l) = filter P (list_remove_first x l).
Proof.
  intros HP. induction l as [|y l IH]; [done|]. simpl.
  destruct (decide (P y)) as [Hy|Hy].
  - rewrite filter_cons_True by done. simpl. case_decide; [done|].
    by rewrite filter_cons_True, IH by done.
  - rewrite filter_cons_False by done. case_decide; [by subst|].
    by rewrite filter_cons_False by done.
Qed.

Lemma elem_of_report_generated_at now t row out names :
  Substituted row t out names →
  generated_at ∈ missing_placeholders (render_template now t row)
  ↔ generated_at ∈ list_remove_first generated_at names.
Proof.
  intros Hsub%Substituted_first_pass.
  rewrite render_template_passes, Hsub. simpl. rewrite elem_of_sorted_set.
  case_bool_decide as Hin; [done|]. split; [done|].
  by intros ?%elem_of_list_remove_first.
Qed.
(** A recorded name stands in a placeholder of the template. *)
Lemma Substituted_name_occurs row t out names n :
  Substituted row t out names → n ∈ names →
  ∃ pre tok post, t = pre ++ tok ++ post ∧ is_placeholder tok n.
Proof.
  induction 1 as [|c t out names _ _ IH|tok key v t out names _ _ _ IH
                  |tok key t out names Htok _ _ IH].
  - by intros ?%elem_of_nil.
  - intros (pre & tok & post & -> & ?)%IH. by exists (c :: pre), tok, post.
  - intros (pre & tok' & post & -> & ?)%IH. exists (tok ++ pre), tok', post.
    by rewrite <-(assoc_L (++)).
  - intros [->|(pre & tok' & post & -> & ?)%IH]%elem_of_cons.
    + by exists [], tok, t.
    + exists (tok ++ pre), tok', post. by rewrite <-(assoc_L (++)).
Qed.

Global Instance str_le_antisym : AntiSymm (=) str_le.
Proof.
  intros a. unfold str_le. induction a as [|x a IH]; intros [|y b]; try done.
  rewrite !str_leb_cons. intros [?|[? ?]] [?|[? ?]]; try lia.
  subst. f_equal. by apply IH.
Qed.

(** X1. A template without two opening braces in a row holds no
    placeholder: it is returned as it is, with nothing reported,
    whatever the record and the clock. *)
Theorem render_template_without_double_brace now t row :
  contains double_brace t = false →
  render_template now t row = {| html := t; missing_placeholders := [] |}.
Proof.
  intros Hdb.
  pose proof (Substituted_first_pass _ _ _ _ (Substituted_no_double_brace row t Hdb))
    as Hpass.
  rewrite render_template_passes, Hpass. cbn [fst snd].
  by rewrite str_replace_absent by (by apply contains_token_double_brace).
Qed.

Lemma render_template_without_double_brace_witness :
  render_template t0 (lit "<style>p { margin: 0 }</style><p>{ 1 } {2}</p>")
    {[lit "p" := lit "x"]}
  = {| html := lit "<style>p { margin: 0 }</style><p>{ 1 } {2}</p>";
       missing_placeholders := [] |}.
Proof. apply render_template_without_double_brace. by vm_compute. Defined.

(** X2. Whatever is reported as unresolved is a name of one or more
    characters of [[A-Za-z0-9_]] that stands in a placeholder of the
    template and is not a key of the record. *)
Theorem render_template_reports_absent_names now t row n :
  n ∈ missing_placeholders (render_template now t row) →
  row !! n = None
  ∧ is_name n
  ∧ ∃ pre tok post, t = pre ++ tok ++ post ∧ is_placeholder tok n.
Proof.
  intros Hin.
  pose proof (first_pass_Substituted row t) as Hsub.
  apply (render_template_missing_sub _ _ _ _ _ _ Hsub) in Hin.
  split; [by apply (Substituted_names _ _ _ _ Hsub)|].
  split; [by apply (Substituted_is_name _ _ _ _ Hsub)|].
  by apply (Substituted_name_occurs _ _ _ _ _ Hsub).
Qed.

Lemma render_template_reports_absent_names_witness :
  let row : gmap (list N) (list N) := {[lit "name" := lit "Ann"]} in
  row !! lit "city" = None
  ∧ is_name (lit "city")
  ∧ ∃ pre tok post,
      lit "{{name}} of {{ city }}" = pre ++ tok ++ post
      ∧ is_placeholder tok (lit "city").
Proof.
  intros row.
  apply (render_template_reports_absent_names t0 (lit "{{name}} of {{ city }}") row).
  apply (bool_decide_unpack _). by vm_compute.
Defined.

(** X3. Giving the record one more field resolves exactly that name:
    the names reported afterwards are the names reported before, except
    the name of the new field. *)
Theorem render_template_insert_resolves now t row k v n :
  n ∈ missing_placeholders (render_template now t (<[k:=v]> row))
  ↔ n ∈ missing_placeholders (render_template now t row) ∧ n ≠ k.
Proof.
  pose proof (first_pass_Substituted row t) as Hsub.
  destruct (Substituted_insert _ k v _ _ _ Hsub) as [out' Hsub'].
  destruct (decide (n = generated_at)) as [->|Hn].
  - rewrite (elem_of_report_generated_at _ _ _ _ _ Hsub),
      (elem_of_report_generated_at _ _ _ _ _ Hsub').
    destruct (decide (generated_at = k)) as [<-|Hk].
    + split; [|by intros [_ []]].
      intros Hin%elem_of_list_remove_first. by apply list_elem_of_filter in Hin as [[] _].
    + rewrite list_remove_first_filter by done. rewrite list_elem_of_filter. tauto.
  - rewrite (elem_of_report_ne _ _ _ _ _ _ Hsub Hn),
      (elem_of_report_ne _ _ _ _ _ _ Hsub' Hn).
    rewrite list_elem_of_filter. tauto.
Qed.

(** X4. The report is canonical: two reports with the same names are the
    same list, in whatever order and how often the names stand in the
    templates. *)
Theorem missing_placeholders_canonical now1 t1 row1 now2 t2 row2 :
  (∀ n, n ∈ missing_placeholders (render_template now1 t1 row1)
        ↔ n ∈ missing_placeholders (render_template now2 t2 row2)) →
  missing_placeholders (render_template now1 t1 row1)
  = missing_placeholders (render_template now2 t2 row2).
Proof.
  intros Hsame. rewrite !render_template_passes in *. simpl in *.
  apply (StronglySorted_unique str_le); [apply sorted_sorted_set..|].
  apply NoDup_Permutation; [apply NoDup_sorted_set..|done].
Qed.

Lemma missing_placeholders_canonical_witness :
  missing_placeholders
    (render_template t0 (lit "{{b}}{{a}}{{b}}") ∅)
  = missing_placeholders
      (render_template t0 (lit "<{{ a }}> <{{ b }}>") {[lit "c" := lit "1"]}).
Proof.
  apply missing_placeholders_canonical.
  intros n. split; intros Hn; apply (bool_decide_unpack _);
    apply (bool_decide_pack _) in Hn; revert Hn; by vm_compute.
Defined.
End resolver_more.

(** * Rendering over a concatenation *)

Section cut_facts.
Implicit Types (row : gmap (list N) (list N)) (t now out a b s : str).

(** Two ways to split one text. *)
Lemma app_split_le (tok rest s b : str) :
  tok ++ rest = s ++ b → (length tok ≤ length s)%nat →
  ∃ r, s = tok ++ r ∧ rest = r ++ b.
Proof.
  intros Heq Hlen.
  apply app_eq_inv in Heq as [(k & -> & ->)|(k & -> & ->)]; [|by exists k].
  rewrite length_app in Hlen. destruct k; [|simpl in Hlen; lia].
  exists []. by rewrite !app_nil_r.
Qed.

Lemma app_split_gt (tok rest s b : str) :
  tok ++ rest = s ++ b → (length s < length tok)%nat →
  ∃ k, tok = s ++ k ∧ k ≠ [] ∧ b = k ++ rest.
Proof.
  intros Heq Hlen.
  apply app_eq_inv in Heq as [(k & -> & ->)|(k & -> & ->)].
  - exists k. split; [done|]. split; [|done]. intros ->.
    rewrite app_nil_r in Hlen. lia.
  - rewrite length_app in Hlen. lia.
Qed.

Lemma no_span_nil_r a : no_span a [].
Proof.
  intros pre s tok key rest _ _ Heq _. rewrite app_nil_r in Heq.
  rewrite Heq, length_app. lia.
Qed.

Lemma no_span_nil_l b : no_span [] b.
Proof.
  intros pre s tok key rest Heq Hs. symmetry in Heq.
  by apply app_eq_nil in Heq as [_ ->].
Qed.

(** A text that starts with a character no token holds is reached by no
    placeholder from the left. *)
Lemma no_span_head a c b : token_char c = false → no_span a (c :: b).
Proof.
  intros Hc pre s tok key rest _ _ Heq Htok.
  destruct (decide (length tok ≤ length s)%nat) as [|Hgt]; [done|].
  destruct (app_split_gt _ _ _ _ (eq_sym Heq)) as (k & -> & Hk & Hb); [lia|].
  destruct k as [|c' k]; [done|]. injection Hb as <- _.
  apply is_placeholder_chars in Htok.
  apply Forall_app in Htok as [_ Htok]. inversion Htok; subst. congruence.
Qed.

(** Nor does a placeholder go on after such a character. *)
Lemma no_span_last a c b : token_char c = false → no_span (a ++ [c]) b.
Proof.
  intros Hc pre s tok key rest Ha Hs Heq Htok.
  destruct (decide (length tok ≤ length s)%nat) as [|Hgt]; [done|].
  destruct (app_split_gt _ _ _ _ (eq_sym Heq)) as (k & -> & Hk & Hb); [lia|].
  assert (last s = Some c) as Hlast.
  { destruct (last_is_Some s) as [_ [x Hx]]; [done|].
    rewrite Hx. f_equal.
    assert (last (a ++ [c]) = Some x) as Hl by (by rewrite Ha, last_app, Hx).
    rewrite last_snoc in Hl. congruence. }
  apply last_Some in Hlast as [s' ->].
  apply is_placeholder_chars in Htok.
  apply Forall_app in Htok as [Htok _]. apply Forall_app in Htok as [_ Htok].
  inversion Htok; subst. congruence.
Qed.

(** A placeholder is reached by no placeholder from the left. *)
Lemma no_span_token a tok key b :
  is_placeholder tok key → no_span a (tok ++ b).
Proof.
  intros (body & -> & Hbody & Hnb)%is_placeholder_head pre s tok' key' rest
    _ Hs Heq Htok'.
  destruct (decide (length tok' ≤ length s)%nat) as [|Hgt]; [done|].
  destruct (app_split_gt _ _ _ _ (eq_sym Heq)) as (k & -> & Hk & Hb); [lia|].
  pose proof Htok' as (ws1 & ws2 & Hshape & _).
  apply is_placeholder_head in Htok' as (body' & Heq' & Hbody' & Hnb').
  destruct s as [|c1 s]; [done|]. destruct k as [|k1 k]; [done|].
  simpl in Hb. injection Hb as <- Hb. simpl in Heq'. injection Heq' as -> Heq'.
  destruct s as [|c2 s].
  - simpl in Heq'. injection Heq' as <-.
    destruct k as [|k2 k]; [done|]. simpl in Hb. injection Hb as <- _.
    by inversion Hnb'.
  - simpl in Heq'. injection Heq' as -> <-.
    apply Forall_app in Hnb' as [_ Hnb']. by inversion Hnb'.
Qed.

(** A text without two opening braces in a row that does not end in a
    brace starts no placeholder at all. *)
Lemma no_span_no_double_brace a b :
  contains double_brace a = false → last a ≠ Some 123 → no_span a b.
Proof.
  intros Hdb Hlast pre s tok key rest -> Hs Heq
    (body & -> & Hbody & _)%is_placeholder_head.
  destruct s as [|c1 s]; [done|]. simpl in Heq. injection Heq as -> Heq.
  destruct s as [|c2 s].
  - destruct Hlast. by rewrite last_snoc.
  - simpl in Heq. injection Heq as -> _.
    assert (contains double_brace (pre ++ 123 :: 123 :: s) = true) as Hin; [|congruence].
    apply contains_spec. by exists pre, s.
Qed.

(** Where no placeholder spans the joint, the substitution of a
    concatenation is the concatenation of the substitutions. *)
Lemma Substituted_app row a b out1 names1 out2 names2 :
  no_span a b →
  Substituted row a out1 names1 → Substituted row b out2 names2 →
  Substituted row (a ++ b) (out1 ++ out2) (names1 ++ names2).
Proof.
  intros Hspan Ha Hb.
  induction Ha as [|c t out names Hno _ IH|tok key v t out names Htok Hv _ IH
                   |tok key t out names Htok Hv _ IH].
  - done.
  - simpl. apply Sub_char.
    + intros (tok & key & rest & Heq & Htok).
      pose proof (Hspan [] (c :: t) tok key rest eq_refl ltac:(done) Heq Htok) as Hlen.
      destruct (app_split_le tok rest (c :: t) b (eq_sym Heq) Hlen) as (r & Hs & _).
      apply Hno. by exists tok, key, r.
    + apply IH. intros pre s tok key rest -> Hs Heq Htok.
      by apply (Hspan (c :: pre) s tok key rest).
  - rewrite <-!(assoc_L (++)). apply (Sub_value _ tok key v); [done|done|].
    apply IH. intros pre s tok' key' rest -> Hs Heq Htok'.
    apply (Hspan (tok ++ pre) s tok' key' rest); [|done..].
    by rewrite <-(assoc_L (++)).
  - rewrite <-!(assoc_L (++)). simpl. apply Sub_missing; [done|done|].
    apply IH. intros pre s tok' key' rest -> Hs Heq Htok'.
    apply (Hspan (tok ++ pre) s tok' key' rest); [|done..].
    by rewrite <-(assoc_L (++)).
Qed.

Lemma first_pass_app row a b :
  no_span a b →
  first_pass row (a ++ b)
  = ((first_pass row a).1 ++ (first_pass row b).1,
     (first_pass row a).2 ++ (first_pass row b).2).
Proof.
  intros Hspan. apply Substituted_first_pass, Substituted_app; [done|..];
    apply first_pass_Substituted.
Qed.
End cut_facts.

Section replace_facts.
Implicit Types (old new a b s : str).

Lemma str_replace_nil old new : old ≠ [] → str_replace old new [] = [].
Proof. by destruct old. Qed.

Lemma str_replace_miss old new c s :
  startswith old (c :: s) = false →
  str_replace old new (c :: s) = c :: str_replace old new s.
Proof.
  intros Hs. unfold str_replace. rewrite scan_miss by (by rewrite Hs).
  simpl. by destruct (substitute _ _ _).
Qed.

Lemma str_replace_hit old new s :
  old ≠ [] → str_replace old new (old ++ s) = new ++ str_replace old new s.
Proof.
  intros Hold. unfold str_replace.
  rewrite (scan_hit _ tt old s Hold).
  - simpl. by destruct (substitute _ _ _) as [? []].
  - assert (startswith old (old ++ s) = true) as ->
      by (apply startswith_spec; by exists s).
    by rewrite drop_app_length.
Qed.

Lemma literal_no_span_nil_l old b : literal_no_span old [] b.
Proof.
  intros pre s Heq Hs. symmetry in Heq. by apply app_eq_nil in Heq as [_ ->].
Qed.

Lemma literal_no_span_head old a c b : c ∉ old → literal_no_span old a (c :: b).
Proof.
  intros Hc pre s _ _ [post Heq]%startswith_spec. apply startswith_spec.
  destruct (decide (length old ≤ length s)%nat) as [Hle|Hgt].
  - destruct (app_split_le _ _ _ _ (eq_sym Heq) Hle) as (r & -> & _). by exists r.
  - destruct (app_split_gt _ _ _ _ (eq_sym Heq)) as (k & -> & Hk & Hb); [lia|].
    destruct k as [|c' k]; [done|]. injection Hb as <- _.
    destruct Hc. apply elem_of_app. right. by left.
Qed.

Lemma literal_no_span_last old a c b : c ∉ old → literal_no_span old (a ++ [c]) b.
Proof.
  intros Hc pre s Ha Hs [post Heq]%startswith_spec. apply startswith_spec.
  destruct (decide (length old ≤ length s)%nat) as [Hle|Hgt].
  - destruct (app_split_le _ _ _ _ (eq_sym Heq) Hle) as (r & -> & _). by exists r.
  - destruct (app_split_gt _ _ _ _ (eq_sym Heq)) as (k & -> & Hk & Hb); [lia|].
    assert (last s = Some c) as Hlast.
    { destruct (last_is_Some s) as [_ [x Hx]]; [done|].
      rewrite Hx. f_equal.
      assert (last (a ++ [c]) = Some x) as Hl by (by rewrite Ha, last_app, Hx).
      rewrite last_snoc in Hl. congruence. }
    apply last_Some in Hlast as [s' ->].
    destruct Hc. apply elem_of_app. left. apply elem_of_app. right. by left.
Qed.

(** Where no occurrence spans the joint, replacing in a concatenation
    is replacing in its parts. *)
Lemma str_replace_app old new a b :
  old ≠ [] → literal_no_span old a b →
  str_replace old new (a ++ b) = str_replace old new a ++ str_replace old new b.
Proof.
  intros Hold.
  assert (∀ n a, length a = n → literal_no_span old a b →
    str_replace old new (a ++ b)
    = str_replace old new a ++ str_replace old new b) as Hall.
  { clear a. intros n. induction (lt_wf n) as [n _ IH]. intros a Hlen Hspan.
    destruct a as [|c a]; [by rewrite str_replace_nil|].
    destruct (startswith old (c :: a)) eqn:Hs.
    - apply startswith_spec in Hs as [r Hr]. rewrite Hr, <-(assoc_L (++)).
      rewrite !str_replace_hit, <-(assoc_L (++)) by done. f_equal.
      apply (IH (length r)); [|done|].
      + rewrite <-Hlen, Hr, length_app. destruct old; [done|simpl; lia].
      + intros pre s -> Hne. apply (Hspan (old ++ pre) s); [|done].
        by rewrite Hr, <-(assoc_L (++)).
    - assert (startswith old ((c :: a) ++ b) = false) as Hs'.
      { destruct (startswith old ((c :: a) ++ b)) eqn:Hs'; [|done].
        by rewrite (Hspan [] (c :: a) eq_refl ltac:(done) Hs') in Hs. }
      simpl in Hs' |- *. rewrite !str_replace_miss by done. simpl. f_equal.
      apply (IH (length a)); [simpl in Hlen; lia|done|].
      intros pre s -> Hne. by apply (Hspan (c :: pre) s). }
  intros Hspan. by apply (Hall (length a)).
Qed.
End replace_facts.

Section render_cut.
Implicit Types (row : gmap (list N) (list N)) (t now out a b : str).

Lemma token_char_literal c : c ∈ generated_at_token → token_char c = true.
Proof.
  intros Hc. apply (bool_decide_pack _) in Hc. revert c Hc.
  assert (Forall (λ c, token_char c = true) generated_at_token) as Hall
    by (by repeat constructor).
  intros c Hc%bool_decide_unpack. by apply (proj1 (Forall_forall _ _) Hall).
Qed.

(** A character no token holds is copied by the substitution. *)
Lemma first_pass_copy row c t :
  token_char c = false →
  first_pass row (c :: t) = (c :: (first_pass row t).1, (first_pass row t).2).
Proof.
  intros Hc. apply first_pass_char, plain_no_placeholder. by intros ->.
Qed.

(** X5. Whitespace inside the braces does not matter: two templates
    that differ only in the whitespace of one placeholder render
    alike. *)
Theorem placeholder_whitespace_ignored now row pre tok1 tok2 key post :
  is_placeholder tok1 key → is_placeholder tok2 key →
  render_template now (pre ++ tok1 ++ post) row
  = render_template now (pre ++ tok2 ++ post) row.
Proof.
  intros Htok1 Htok2. rewrite !render_template_passes.
  rewrite (first_pass_app row pre (tok1 ++ post)) by (by eapply no_span_token).
  rewrite (first_pass_app row pre (tok2 ++ post)) by (by eapply no_span_token).
  by rewrite (first_pass_token _ _ _ _ Htok1), (first_pass_token _ _ _ _ Htok2).
Qed.

Lemma placeholder_whitespace_ignored_witness :
  render_template t0 (lit "<b>{{name}}</b>{{x}}") {[lit "name" := lit "Ann"]}
  = render_template t0 (lit "<b>" ++ (lit "{{" ++ [9; 32] ++ lit "name" ++ [10]
                                        ++ lit "}}") ++ lit "</b>{{x}}")
      {[lit "name" := lit "Ann"]}.
Proof.
  apply (placeholder_whitespace_ignored t0 _ (lit "<b>") (lit "{{name}}") _
           (lit "name") (lit "</b>{{x}}")).
  - apply (is_placeholder_bare (lit "name")); [done|]. by repeat constructor.
  - exists [9; 32], [10]. split; [done|].
    split; [by repeat constructor|]. split; [done|].
    split; by repeat constructor.
Defined.

(** X6. A character that no placeholder token can hold (anything but a
    brace, whitespace, a letter, a digit or an underscore) separates the
    template: the text before it and the text from it on are rendered
    independently of each other. *)
Theorem render_template_splits now row a c b :
  token_char c = false →
  html (render_template now (a ++ c :: b) row)
  = html (render_template now a row) ++ html (render_template now (c :: b) row)
  ∧ ∀ n, n ≠ generated_at →
      n ∈ missing_placeholders (render_template now (a ++ c :: b) row)
      ↔ n ∈ missing_placeholders (render_template now a row)
        ∨ n ∈ missing_placeholders (render_template now (c :: b) row).
Proof.
  intros Hc. split.
  - rewrite !render_template_passes. cbn [html].
    rewrite first_pass_app by (by apply no_span_head). cbn [fst].
    rewrite (first_pass_copy _ _ _ Hc). cbn [fst].
    apply str_replace_app; [done|]. apply literal_no_span_head.
    intros Hin%token_char_literal. congruence.
  - intros n Hn.
    rewrite (elem_of_report_ne _ _ _ _ _ _ (first_pass_Substituted row _) Hn).
    rewrite (elem_of_report_ne _ _ _ _ _ _ (first_pass_Substituted row a) Hn).
    rewrite (elem_of_report_ne _ _ _ _ _ _ (first_pass_Substituted row (c :: b)) Hn).
    rewrite first_pass_app by (by apply no_span_head). cbn [snd].
    apply elem_of_app.
Qed.

Lemma render_template_splits_witness :
  html (render_template t0 (lit "<td>{{a}}</td><td>{{b}}</td>") {[lit "a" := lit "1"]})
  = html (render_template t0 (lit "<td>{{a}}") {[lit "a" := lit "1"]})
    ++ html (render_template t0 (lit "</td><td>{{b}}</td>") {[lit "a" := lit "1"]}).
Proof.
  apply (proj1 (render_template_splits t0 {[lit "a" := lit "1"]} (lit "<td>{{a}}")
                  60 (lit "/td><td>{{b}}</td>") eq_refl)).
Defined.
End render_cut.

(** * Styling and rendering *)

Section styled_rendering.
Implicit Types (row : gmap (list N) (list N)) (t now css a b : str).

Lemma plain_no_double_brace s : plain s → contains double_brace s = false.
Proof.
  induction 1 as [|c s Hc _ IH]; [done|].
  change (contains double_brace (c :: s))
    with ((c =? 123) && startswith [123] s || contains double_brace s).
  rewrite IH. by apply N.eqb_neq in Hc as ->.
Qed.

Lemma no_double_brace_plain_l a b :
  plain a → contains double_brace b = false → contains double_brace (a ++ b) = false.
Proof.
  intros Ha Hb. induction Ha as [|c a Hc _ IH]; [done|].
  change (contains double_brace ((c :: a) ++ b))
    with ((c =? 123) && startswith [123] (a ++ b) || contains double_brace (a ++ b)).
  rewrite IH. by apply N.eqb_neq in Hc as ->.
Qed.

Lemma no_double_brace_plain_r a b :
  contains double_brace a = false → plain b → contains double_brace (a ++ b) = false.
Proof.
  intros Ha Hb. induction a as [|c a IH]; [by apply plain_no_double_brace|].
  apply contains_cons_false in Ha as [Hs Ha].
  change (contains double_brace ((c :: a) ++ b))
    with ((c =? 123) && startswith [123] (a ++ b) || contains double_brace (a ++ b)).
  rewrite (IH Ha), orb_false_r.
  change (startswith double_brace (c :: a))
    with ((c =? 123) && startswith [123] a) in Hs.
  destruct (c =? 123); [|done]. simpl in Hs |- *.
  destruct a as [|c2 a]; [|done]. simpl.
  destruct Hb as [|c2 b Hc2 _]; [done|]. simpl.
  by apply N.eqb_neq in Hc2 as ->.
Qed.

Lemma style_block_no_double_brace css :
  contains double_brace css = false →
  contains double_brace (style_block css) = false.
Proof.
  intros Hcss. unfold style_block.
  rewrite (assoc_L (++) (lit "<style>") nl).
  apply no_double_brace_plain_l; [by repeat constructor|].
  apply no_double_brace_plain_r; [done|by repeat constructor].
Qed.

Lemma style_block_snoc css :
  style_block css = (lit "<style>" ++ nl ++ css ++ nl ++ lit "</style>") ++ [10].
Proof. unfold style_block. by rewrite <-!(assoc_L (++)). Qed.

(** Putting a text without two opening braces in a row, and with a line
    feed at its end, into a template at a place no placeholder spans
    puts it at the same place into the rendered text, and changes
    nothing else. *)
Lemma render_insertion now row pre ins post :
  contains double_brace (ins ++ [10]) = false →
  no_span pre post → no_span pre ((ins ++ [10]) ++ post) →
  literal_no_span generated_at_token (first_pass row pre).1 (first_pass row post).1 →
  literal_no_span generated_at_token (first_pass row pre).1
    ((ins ++ [10]) ++ (first_pass row post).1) →
  let sr := str_replace generated_at_token now in
  html (render_template now (pre ++ post) row)
  = sr (first_pass row pre).1 ++ sr (first_pass row post).1
  ∧ html (render_template now (pre ++ (ins ++ [10]) ++ post) row)
    = sr (first_pass row pre).1 ++ (ins ++ [10]) ++ sr (first_pass row post).1
  ∧ missing_placeholders (render_template now (pre ++ (ins ++ [10]) ++ post) row)
    = missing_placeholders (render_template now (pre ++ post) row).
Proof.
  intros Hdb Hspan1 Hspan2 Hlit1 Hlit2 sr.
  assert (first_pass row (ins ++ [10]) = (ins ++ [10], [])) as Hins
    by (by apply Substituted_first_pass, Substituted_no_double_brace).
  assert (no_span (ins ++ [10]) post) as Hspan3.
  { apply no_span_no_double_brace; [done|]. by rewrite last_snoc. }
  rewrite !render_template_passes. cbn [html missing_placeholders].
  rewrite (first_pass_app row pre post) by done.
  rewrite (first_pass_app row pre ((ins ++ [10]) ++ post)) by done.
  rewrite (first_pass_app row (ins ++ [10]) post) by done.
  rewrite Hins. cbn [fst snd]. rewrite app_nil_l.
  split; [by apply str_replace_app|]. split; [|done].
  unfold sr. rewrite str_replace_app by done. f_equal.
  rewrite str_replace_app.
  - by rewrite (str_replace_absent _ _ (ins ++ [10]))
      by (by apply contains_token_double_brace).
  - done.
  - apply literal_no_span_last. by apply (bool_decide_unpack _).
Qed.

Lemma first_pass_snoc row a c :
  token_char c = false →
  (first_pass row (a ++ [c])).1 = (first_pass row a).1 ++ [c].
Proof.
  intros Hc. rewrite first_pass_app by (by apply no_span_head).
  by rewrite (first_pass_copy _ _ _ Hc).
Qed.

(** X7. Styling does not disturb rendering. For a stylesheet without
    two opening braces in a row, rendering the styled template gives the
    rendering of the raw template with the style block put in, bare or
    inside a head section, and reports the same unresolved names. *)
Theorem styling_commutes_with_rendering now row t css :
  contains double_brace css = false →
  ∃ before after l r,
    html (render_template now t row) = before ++ after
    ∧ html (render_template now (_inject_css_into_html t css) row)
      = before ++ (l ++ style_block css ++ r) ++ after
    ∧ ((l = [] ∧ r = []) ∨ (l = nl ++ lit "<head>" ++ nl ∧ r = lit "</head>" ++ nl))
    ∧ missing_placeholders (render_template now (_inject_css_into_html t css) row)
      = missing_placeholders (render_template now t row).
Proof.
  intros Hcss. pose proof (style_block_no_double_brace css Hcss) as Hblock.
  set (sr := str_replace generated_at_token now).
  unfold _inject_css_into_html.
  destruct (Re.search CLOSE_HEAD_RE t) as [[[pre gs] rest]|] eqn:Hclose.
  - (* before the closing head marker *)
    pose proof Hclose as (-> & Hm & _)%search_Some.
    apply match_close_head in Hm as (tag & ws & Hm & _).
    unfold m_start. cbn [fst snd]. rewrite take_app_length, drop_app_length.
    rewrite Hm. set (post := (tag ++ ws ++ lit ">") ++ rest).
    replace ((lit "</" ++ tag ++ ws ++ lit ">") ++ rest) with (60 :: 47 :: post)
      by (unfold post; simpl; by rewrite <-!(assoc_L (++))).
    destruct (render_insertion now row pre (lit "<style>" ++ nl ++ css ++ nl ++ lit "</style>")
                (60 :: 47 :: post)) as (H1 & H2 & H3);
      [..|rewrite <-style_block_snoc in H2, H3].
    + by rewrite <-style_block_snoc.
    + by apply no_span_head.
    + by apply no_span_head.
    + rewrite first_pass_copy by done. apply literal_no_span_head.
      by apply (bool_decide_unpack _).
    + apply literal_no_span_head. by apply (bool_decide_unpack _).
    + exists (sr (first_pass row pre).1), (sr (first_pass row (60 :: 47 :: post)).1), [], [].
      split; [done|]. split; [by rewrite app_nil_r|]. split; [by left|done].
  - destruct (Re.search OPEN_HTML_RE t) as [[[pre gs] rest]|] eqn:Hopen.
    + (* after the opening root marker *)
      pose proof Hopen as (-> & Hm & _)%search_Some.
      apply match_open_html in Hm as (tag & attrs & Hm & _).
      unfold m_end. cbn [fst snd].
      rewrite <-length_app, (assoc_L (++) pre), take_app_length, drop_app_length.
      rewrite Hm. set (pre' := pre ++ lit "<" ++ tag ++ attrs).
      replace (pre ++ lit "<" ++ tag ++ attrs ++ lit ">") with (pre' ++ [62])
        by (unfold pre'; by rewrite <-!(assoc_L (++))).
      set (ins := (nl ++ lit "<head>" ++ nl) ++ style_block css ++ lit "</head>").
      replace ((pre' ++ [62]) ++ (nl ++ lit "<head>" ++ nl) ++ style_block css
               ++ (lit "</head>" ++ nl) ++ rest)
        with ((pre' ++ [62]) ++ (ins ++ [10]) ++ rest)
        by (unfold ins; by rewrite <-!(assoc_L (++))).
      destruct (render_insertion now row (pre' ++ [62]) ins rest) as (H1 & H2 & H3).
      * unfold ins. rewrite <-!(assoc_L (++)).
        do 3 (apply no_double_brace_plain_l; [by repeat constructor|]).
        apply no_double_brace_plain_r; [done|by repeat constructor].
      * by apply no_span_last.
      * by apply no_span_last.
      * rewrite first_pass_snoc by done. apply literal_no_span_last.
        by apply (bool_decide_unpack _).
      * rewrite first_pass_snoc by done. apply literal_no_span_last.
        by apply (bool_decide_unpack _).
      * exists (sr (first_pass row (pre' ++ [62])).1), (sr (first_pass row rest).1),
          (nl ++ lit "<head>" ++ nl), (lit "</head>" ++ nl).
        split; [done|]. split; [|split; [by right|done]].
        rewrite H2. unfold ins. by rewrite <-!(assoc_L (++)).
    + (* in front of the document *)
      destruct (render_insertion now row [] (lit "<style>" ++ nl ++ css ++ nl ++ lit "</style>") t)
        as (H1 & H2 & H3); [..|rewrite <-style_block_snoc in H2, H3].
      * by rewrite <-style_block_snoc.
      * apply no_span_nil_l.
      * apply no_span_nil_l.
      * apply literal_no_span_nil_l.
      * apply literal_no_span_nil_l.
      * exists (sr (first_pass row []).1), (sr (first_pass row t).1), [], [].
        split; [done|]. split; [by rewrite app_nil_r|]. split; [by left|done].
Qed.

Lemma styling_commutes_with_rendering_witness :
  let row : gmap (list N) (list N) := {[lit "name" := lit "Ann"]} in
  let t := lit "<html><head></head><body>{{name}} {{age}}</body></html>" in
  ∃ before after l r,
    html (render_template t0 t row) = before ++ after
    ∧ html (render_template t0 (_inject_css_into_html t DEFAULT_CSS) row)
      = before ++ (l ++ style_block DEFAULT_CSS ++ r) ++ after
    ∧ ((l = [] ∧ r = []) ∨ (l = nl ++ lit "<head>" ++ nl ∧ r = lit "</head>" ++ nl))
    ∧ missing_placeholders (render_template t0 (_inject_css_into_html t DEFAULT_CSS) row)
      = missing_placeholders (render_template t0 t row).
Proof.
  intros row t. apply styling_commutes_with_rendering. by vm_compute.
Defined.
End styled_rendering.

(** * Further properties of the output namer *)

Section namer_more.
Implicit Types (name s : str) (row : gmap (list N) (list N)) (p : char → bool).

Lemma rev_reverse (s : str) : rev s = reverse s.
Proof. unfold reverse. by rewrite rev_alt. Qed.

Lemma lstrip_chars_id p s :
  (∀ c, head s = Some c → p c = false) → lstrip_chars p s = s.
Proof. destruct s as [|c s]; [done|]. intros H. simpl. by rewrite (H c). Qed.

Lemma lstrip_chars_head p s c :
  head (lstrip_chars p s) = Some c → p c = false.
Proof.
  induction s as [|x s IH]; [done|]. simpl. destruct (p x) eqn:Hx; [done|].
  by intros [= <-].
Qed.

Lemma lstrip_chars_last p s :
  lstrip_chars p s ≠ [] → last (lstrip_chars p s) = last s.
Proof.
  intros Hne. destruct (lstrip_chars_suffix p s) as [pre Heq].
  rewrite Heq at 2. rewrite last_app.
  destruct (last_is_Some (lstrip_chars p s)) as [_ [x ->]]; done.
Qed.

Lemma elem_of_lstrip_chars p s c : c ∈ lstrip_chars p s → c ∈ s.
Proof.
  intros Hc. destruct (lstrip_chars_suffix p s) as [pre Heq].
  rewrite Heq. apply elem_of_app. by right.
Qed.

Lemma rstrip_chars_id p s :
  (∀ c, last s = Some c → p c = false) → rstrip_chars p s = s.
Proof.
  intros H. unfold rstrip_chars. rewrite !rev_reverse, lstrip_chars_id.
  - apply reverse_involutive.
  - intros c. rewrite head_reverse. apply H.
Qed.

Lemma rstrip_chars_last p s c :
  last (rstrip_chars p s) = Some c → p c = false.
Proof.
  unfold rstrip_chars. rewrite !rev_reverse, last_reverse.
  apply lstrip_chars_head.
Qed.

Lemma rstrip_chars_head p s :
  rstrip_chars p s ≠ [] → head (rstrip_chars p s) = head s.
Proof.
  unfold rstrip_chars. rewrite !rev_reverse. intros Hne.
  rewrite head_reverse, lstrip_chars_last, last_reverse; [done|].
  intros Heq. by rewrite Heq in Hne.
Qed.

Lemma elem_of_rstrip_chars p s c : c ∈ rstrip_chars p s → c ∈ s.
Proof.
  unfold rstrip_chars. rewrite !rev_reverse, elem_of_reverse.
  intros ?%elem_of_lstrip_chars. by apply elem_of_reverse.
Qed.

Lemma strip_head s c : head (strip s) = Some c → isspace c = false.
Proof.
  unfold strip. intros Hc.
  rewrite rstrip_chars_head in Hc by (intros Heq; by rewrite Heq in Hc).
  by apply lstrip_chars_head in Hc.
Qed.

Lemma strip_last s c : last (strip s) = Some c → isspace c = false.
Proof. apply rstrip_chars_last. Qed.

Lemma strip_id s :
  (∀ c, head s = Some c → isspace c = false) →
  (∀ c, last s = Some c → isspace c = false) → strip s = s.
Proof.
  intros Hh Hl. unfold strip. rewrite (lstrip_chars_id _ _ Hh).
  by apply rstrip_chars_id.
Qed.

Lemma elem_of_strip s c : c ∈ strip s → c ∈ s.
Proof. by intros ?%elem_of_rstrip_chars%elem_of_lstrip_chars. Qed.

Lemma squeeze_from_id b s :
  Forall (λ c, is_reserved c = false) s → squeeze_from b s = s.
Proof.
  intros Hs. revert b. induction Hs as [|c s Hc _ IH]; intros b; [done|].
  simpl. by rewrite Hc, IH.
Qed.

Lemma elem_of_squeeze_from b s c : c ∈ squeeze_from b s → c ∈ s ∨ c = 95.
Proof.
  revert b. induction s as [|x s IH]; intros b; simpl; [by left|].
  destruct (is_reserved x).
  - intros [Hc|Hc]%elem_of_app.
    + right. destruct b; [by apply elem_of_nil in Hc|].
      by apply list_elem_of_singleton in Hc.
    + destruct (IH _ Hc); [left; by right|by right].
  - intros [->|Hc]%elem_of_cons; [left; by left|].
    destruct (IH _ Hc); [left; by right|by right].
Qed.

Lemma sanitize_filename_clean name :
  _sanitize_filename name ≠ []
  ∧ Forall (λ c, is_reserved c = false) (_sanitize_filename name).
Proof.
  rewrite sanitize_filename_pipeline. split.
  - unfold or_default. by case_bool_decide.
  - apply or_default_clean, Forall_strip, Forall_rstrip_chars, squeeze_from_clean.
Qed.

Lemma format_04d_clean index :
  Forall (λ c, is_reserved c = false) (format_04d index).
Proof.
  assert (∀ d, Forall (λ c, is_reserved c = false) (uint_digits d)) as Hd
    by (induction d; simpl; by constructor).
  unfold format_04d, zfill. destruct (index <? 0)%Z.
  - change (lit "-" ++ ?x) with (45 :: x). constructor; [done|].
    apply Forall_app. split; [by apply Forall_replicate|apply Hd].
  - apply Forall_app. split; [by apply Forall_replicate|apply Hd].
Qed.

(** X8. A name that is already safe is left as it is: not empty, no
    reserved character, no whitespace at either end and no dot at the
    end. *)
Theorem sanitize_filename_keeps_safe_names name :
  name ≠ [] →
  Forall (λ c, c ∉ reserved_chars) name →
  (∀ c, head name = Some c → isspace c = false) →
  (∀ c, last name = Some c → isspace c = false ∧ c ≠ 46) →
  _sanitize_filename name = name.
Proof.
  intros Hne Hres Hhead Hlast.
  rewrite sanitize_filename_pipeline.
  rewrite (strip_id name) by (done || (intros c Hc; by apply Hlast)).
  unfold squeeze_reserved. rewrite squeeze_from_id.
  - rewrite rstrip_chars_id.
    + rewrite (strip_id name) by (done || (intros c Hc; by apply Hlast)).
      unfold or_default. by rewrite bool_decide_false.
    + intros c [Hs Hdot]%Hlast. unfold dot_or_space.
      apply bool_decide_eq_false. intros [->|[->|[]%elem_of_nil]%elem_of_cons]%elem_of_cons;
        [done|by vm_compute in Hs].
  - eapply Forall_impl; [exact Hres|]. intros c Hc.
    unfold is_reserved. by apply bool_decide_eq_false.
Qed.

Lemma sanitize_filename_keeps_safe_names_witness :
  _sanitize_filename (lit "report 2024.v1_final") = lit "report 2024.v1_final".
Proof.
  apply sanitize_filename_keeps_safe_names.
  - done.
  - apply Forall_forall. intros c Hc. apply (bool_decide_unpack _).
    revert c Hc. apply Forall_forall. by repeat constructor.
  - intros c [= <-]. by vm_compute.
  - intros c [= <-]. by vm_compute.
Defined.

(** X9. The sanitized name has no whitespace at either end. It does not
    end in a dot either when the space is the only whitespace character
    in the input; a tab or a line feed next to a trailing dot can leave
    the dot in place. *)
Theorem sanitize_filename_ends name :
  (∀ c, head (_sanitize_filename name) = Some c → isspace c = false)
  ∧ (∀ c, last (_sanitize_filename name) = Some c → isspace c = false)
  ∧ ((∀ c, c ∈ name → isspace c = true → c = 32) →
     last (_sanitize_filename name) ≠ Some 46)
  ∧ _sanitize_filename (lit "a." ++ [9] ++ lit ".") = lit "a.".
Proof.
  rewrite sanitize_filename_pipeline.
  set (X := squeeze_reserved (strip name)).
  set (Y := rstrip_chars dot_or_space X).
  split; [|split; [|split; [|by vm_compute]]].
  - intros c. unfold or_default. case_bool_decide; [intros [= <-]; by vm_compute|].
    apply strip_head.
  - intros c. unfold or_default. case_bool_decide; [intros Hc; by vm_compute in Hc; injection Hc as <-|].
    apply strip_last.
  - intros Hws. unfold or_default. case_bool_decide as Hempty; [by vm_compute|].
    assert (∀ c, c ∈ Y → isspace c = true → c = 32) as HY.
    { intros c Hc%elem_of_rstrip_chars. unfold X, squeeze_reserved in Hc.
      apply elem_of_squeeze_from in Hc as [Hc%elem_of_strip| ->]; [by apply Hws|].
      by intros Hc; vm_compute in Hc. }
    unfold strip in Hempty |- *.
    set (Z := lstrip_chars isspace Y) in *.
    assert (Z ≠ []) as HZ by (intros HZ; by rewrite HZ in Hempty).
    destruct (last_is_Some Z) as [_ [c Hc]]; [done|].
    pose proof Hc as HcY. unfold Z in HcY. rewrite lstrip_chars_last in HcY by done.
    pose proof (rstrip_chars_last _ _ _ HcY) as Hds.
    assert (isspace c = false) as Hsp.
    { destruct (isspace c) eqn:Hsp; [|done].
      rewrite (HY c) in Hds; [by vm_compute in Hds| |done].
      by apply last_Some_elem_of. }
    rewrite rstrip_chars_id by (intros c'; rewrite Hc; by intros [= <-]).
    rewrite Hc. intros [= ->]. by vm_compute in Hds.
Qed.

Lemma sanitize_filename_ends_witness :
  last (_sanitize_filename (lit " my file. . ")) ≠ Some 46.
Proof.
  apply (proj1 (proj2 (proj2 (sanitize_filename_ends (lit " my file. . "))))).
  intros c Hc. apply (bool_decide_pack _) in Hc. revert c Hc.
  assert (Forall (λ c, isspace c = true → c = 32) (lit " my file. . ")) as Hall.
  { repeat constructor; by vm_compute. }
  intros c Hc%bool_decide_unpack. by apply (proj1 (Forall_forall _ _) Hall).
Defined.
End namer_more.

Section naming_more.
Implicit Types (row : gmap (list N) (list N)) (index : Z).

Lemma choose_from_clean row index keys :
  choose_from row index keys ≠ []
  ∧ Forall (λ c, is_reserved c = false) (choose_from row index keys).
Proof.
  induction keys as [|k keys IH]; cbn [choose_from].
  - split; [by intros [=]%(f_equal length)|]. apply Forall_app.
    split; [vm_compute; by repeat constructor|apply format_04d_clean].
  - case_bool_decide; [done|]. apply sanitize_filename_clean.
Qed.

Lemma choose_from_fields row1 row2 i j keys :
  (∀ k, k ∈ keys → row1 !! k = row2 !! k) →
  (∃ k, k ∈ keys ∧ strip (default [] (row1 !! k)) ≠ []) →
  choose_from row1 i keys = choose_from row2 j keys.
Proof.
  induction keys as [|k keys IH]; intros Hsame [k' [Hk' Hne]].
  - by apply elem_of_nil in Hk'.
  - cbn [choose_from]. rewrite <-(Hsame k) by (by left).
    case_bool_decide as Hblank; [|done].
    apply IH; [intros k'' ?; apply Hsame; by right|].
    exists k'. split; [|done]. apply elem_of_cons in Hk' as [->|]; [|done].
    by rewrite Hblank in Hne.
Qed.

Lemma choose_from_fallback row index keys :
  (¬ ∃ k, k ∈ keys ∧ strip (default [] (row !! k)) ≠ []) →
  choose_from row index keys = lit "document_" ++ format_04d index.
Proof.
  intros Hno. rewrite <-(app_nil_r keys). apply choose_from_blank.
  intros k Hk. destruct (decide (strip (default [] (row !! k)) = [])); [done|].
  destruct Hno. by exists k.
Qed.

(** X10. Whatever the record and the index, the derived name is not
    empty and holds no reserved character; in particular it holds
    neither slash nor backslash, so the output path stays in the output
    directory. *)
Theorem choose_output_filename_safe row index :
  _choose_output_filename row index ≠ []
  ∧ Forall (λ c, c ∉ reserved_chars) (_choose_output_filename row index)
  ∧ (47 ∉ _choose_output_filename row index ++ lit ".pdf")
  ∧ (92 ∉ _choose_output_filename row index ++ lit ".pdf").
Proof.
  destruct (choose_from_clean row index name_keys) as [Hne Hclean].
  fold (_choose_output_filename row index) in Hne, Hclean.
  split; [done|]. split; [|split].
  - eapply Forall_impl; [exact Hclean|]. intros c Hc.
    unfold is_reserved in Hc. by apply bool_decide_eq_false in Hc.
  - intros [Hin|Hin]%elem_of_app; [|by apply (bool_decide_pack _) in Hin].
    by apply (proj1 (Forall_forall _ _) Hclean) in Hin.
  - intros [Hin|Hin]%elem_of_app; [|by apply (bool_decide_pack _) in Hin].
    by apply (proj1 (Forall_forall _ _) Hclean) in Hin.
Qed.

(** X11. With a usable naming field the derived name depends on the six
    conventional fields only: not on the index, and not on any other
    field. Two records that agree on the six fields get the same name,
    so the later document overwrites the earlier one. *)
Theorem choose_output_filename_by_fields row1 row2 i j :
  (∀ k, k ∈ name_keys → row1 !! k = row2 !! k) →
  has_naming_field row1 →
  _choose_output_filename row1 i = _choose_output_filename row2 j.
Proof. apply choose_from_fields. Qed.

Lemma choose_output_filename_by_fields_witness :
  _choose_output_filename {[lit "id" := lit "7"; lit "city" := lit "Rome"]} 1
  = _choose_output_filename {[lit "id" := lit "7"; lit "city" := lit "Oslo"]} 2.
Proof.
  apply choose_output_filename_by_fields.
  - intros k Hk. apply (bool_decide_unpack _). revert k Hk.
    apply Forall_forall. by repeat constructor.
  - exists (lit "id"). split; [|by vm_compute].
    apply (bool_decide_unpack _). by vm_compute.
Defined.

Lemma format_04d_inj i j :
  (0 ≤ i)%Z → (0 ≤ j)%Z → format_04d i = format_04d j → i = j.
Proof.
  intros Hi Hj Heq.
  destruct (format_04d_value i Hi) as [<- _].
  destruct (format_04d_value j Hj) as [<- _]. by rewrite Heq.
Qed.

Lemma out_paths_fallback out idx rows p :
  (∀ row, row ∈ rows → ¬ has_naming_field row) →
  p ∈ out_paths out idx rows →
  ∃ i, (idx ≤ i)%Z
       ∧ p = path_join out ((lit "document_" ++ format_04d i) ++ lit ".pdf").
Proof.
  revert idx. induction rows as [|row rows IH]; intros idx Hno; cbn [out_paths].
  - by intros ?%elem_of_nil.
  - intros [->|Hp]%elem_of_cons.
    + exists idx. split; [lia|]. unfold out_path, _choose_output_filename.
      rewrite choose_from_fallback; [done|]. apply Hno. by left.
    + destruct (IH (idx + 1)%Z) as (i & Hi & ->); [|done|].
      * intros r ?. apply Hno. by right.
      * exists i. split; [lia|done].
Qed.

(** Fallback paths numbered from a non-negative index on are pairwise
    different. *)
Lemma out_paths_fallback_NoDup out idx rows :
  (0 ≤ idx)%Z →
  (∀ row, row ∈ rows → ¬ has_naming_field row) →
  NoDup (out_paths out idx rows).
Proof.
  revert idx.
  induction rows as [|row rows IH]; intros idx Hidx Hno; cbn [out_paths];
    [constructor|].
  constructor.
  - intros (i & Hi & Heq)%out_paths_fallback; [|intros r ?; apply Hno; by right].
    unfold out_path, _choose_output_filename in Heq.
    rewrite choose_from_fallback in Heq by (apply Hno; by left).
    injection Heq as Heq. apply app_inv_tail in Heq.
    apply format_04d_inj in Heq; lia.
  - apply IH; [lia|]. intros r ?. apply Hno. by right.
Qed.
End naming_more.

Section batch_more.
Context {World : Type}.
Variable backend : World → str → Path → World * backend_outcome.
Variable clock : World → str.
Implicit Types (w : World) (rows : list (gmap (list N) (list N))).

Lemma render_rows_app tpl out w idx rows1 rows2 failures generated :
  render_rows backend clock tpl out w idx (rows1 ++ rows2) failures generated
  = let run1 := render_rows backend clock tpl out w idx rows1 failures generated in
    render_rows backend clock tpl out run1.1.1 (idx + Z.of_nat (length rows1))
      rows2 run1.1.2 run1.2.
Proof.
  revert w idx failures generated.
  induction rows1 as [|row rows1 IH]; intros w idx failures generated.
  - cbn [app length render_rows fst snd]. by rewrite Z.add_0_r.
  - rewrite <-app_comm_cons, !render_rows_cons.
    destruct (html_to_pdf backend w _ _) as [w' [e|[]]];
      rewrite IH; cbn zeta; rewrite length_cons;
      by replace (idx + Z.of_nat (S (length rows1)))%Z
           with (idx + 1 + Z.of_nat (length rows1))%Z by lia.
Qed.

(** X12. Records without a usable naming field never collide: numbered
    from 1, their output paths are pairwise different, and so are the
    paths of the documents a run over them produces. No document of
    such a batch overwrites another. *)
Theorem fallback_paths_distinct tpl out w rows :
  (∀ row, row ∈ rows → ¬ has_naming_field row) →
  NoDup (out_paths out 1 rows)
  ∧ NoDup (render_rows backend clock tpl out w 1 rows 0 []).2.
Proof.
  intros Hno.
  assert (NoDup (out_paths out 1 rows)) as Hnodup
    by (by apply out_paths_fallback_NoDup).
  split; [done|].
  destruct (render_rows_attempts backend clock tpl out w 1 rows 0 []) as [_ ->].
  rewrite app_nil_l. eapply sublist_NoDup; [exact Hnodup|].
  rewrite <-(attempts_paths backend clock tpl out w 1 rows).
  apply fmap_sublist, sublist_filter.
Qed.

(** X13. What happens to the first records of a batch does not depend
    on the records after them: the run over a longer batch continues
    the run over its first part, in the world that part left, with its
    failure count and its produced paths, at the next index. So the
    documents produced for the first part are a prefix of those of the
    whole batch, and the failure count only grows. *)
Theorem batch_prefix_stable tpl out w rows1 rows2 :
  let run1 := render_rows backend clock tpl out w 1 rows1 0 [] in
  let run := render_rows backend clock tpl out w 1 (rows1 ++ rows2) 0 [] in
  run = render_rows backend clock tpl out run1.1.1
          (1 + Z.of_nat (length rows1)) rows2 run1.1.2 run1.2
  ∧ run1.2 `prefix_of` run.2
  ∧ (run1.1.2 ≤ run.1.2)%Z.
Proof.
  intros run1 run.
  assert (run = render_rows backend clock tpl out run1.1.1
                  (1 + Z.of_nat (length rows1)) rows2 run1.1.2 run1.2) as Hrun
    by apply render_rows_app.
  split; [done|]. rewrite Hrun.
  destruct (render_rows_attempts backend clock tpl out run1.1.1
              (1 + Z.of_nat (length rows1)) rows2 run1.1.2 run1.2) as [-> ->].
  split; [by eexists|lia].
Qed.
End batch_more.

Lemma fallback_paths_distinct_witness :
  let rows := [{[lit "city" := lit "Rome"]}; {[lit "city" := lit "Rome"]};
               {[lit "name" := lit "  "]}] : list (gmap (list N) (list N)) in
  NoDup (out_paths (lit "/out") 1 rows)
  ∧ NoDup (render_rows (failing_at 1) (λ _, t0) (lit "<p>{{city}}</p>")
             (lit "/out") 0%nat 1 rows 0 []).2.
Proof.
  intros rows. apply fallback_paths_distinct.
  intros row Hrow (k & Hk & Hne). apply Hne. clear Hne.
  apply (bool_decide_unpack _).
  revert k Hk. apply Forall_forall.
  revert row Hrow. apply Forall_forall.
  repeat constructor; by vm_compute.
Defined.
